(** * whereto: multi-criteria normalisation and aggregation engine

    A shallow embedding of [main.go]: the [ScoreSet] table, its leaf
    constructor [NewScoreSet], the hierarchical [Merge] and the ranking
    computed by [Print].

    Go's [float64] is kept abstract behind the interface [Float64], which
    lists exactly the operations the program applies to floats.  The code
    is transcribed once, over that interface, and read at two instances:

    - [Binary64]: IEEE-754 binary64 (Rocq's primitive floats), bit-exact,
      with NaN and the infinities.  Concrete runs are evaluated here.
    - [Exact]: the real numbers, the rounding-free reading of the same
      code.  Algebraic laws are proved here, under hypotheses that keep
      every divisor non-zero (where the two readings can differ in kind
      and not only in the last bits).

    Panics are results: a function that can panic returns [result]. *)

From Stdlib Require Import String.
From Stdlib Require Import List ZArith Bool Arith Lia.
From Stdlib Require Import Permutation Sorted.
From Stdlib Require Import Floats.
From Stdlib Require Uint63.
From Stdlib Require Import Reals Lra.
Import ListNotations.

Set Implicit Arguments.

(** Decimal literals such as [0.7] denote the nearest binary64 value, as
    they do in Go. *)
Set Warnings "-inexact-float".

(** ** Panics *)

Inductive result (A : Type) : Type :=
| Ok (a : A)
| Panic (msg : string).

Arguments Ok {A} a.
Arguments Panic {A} msg.

Definition bind {A B : Type} (m : result A) (k : A -> result B) : result B :=
  match m with
  | Ok a => k a
  | Panic msg => Panic msg
  end.

Declare Scope go_scope.
Delimit Scope go_scope with go.
Notation "x <- m ;; k" := (bind m (fun x => k))
  (at level 61, m at next level, right associativity) : go_scope.
Notation "' p <- m ;; k" := (bind m (fun x => match x with p => k end))
  (at level 61, p pattern, m at next level, right associativity) : go_scope.
Open Scope go_scope.

(** A [for] loop whose body may panic: the state is threaded from left
    to right and the first panic ends the loop. *)
Fixpoint forM {A S : Type} (body : S -> A -> result S) (l : list A) (s : S)
  : result S :=
  match l with
  | [] => Ok s
  | a :: l' => s' <- body s a ;; forM body l' s'
  end.

(** Go's run-time panic for [a[i]] with [i] outside the slice. *)
Definition ErrIndex : string := "runtime error: index out of range"%string.

Definition index {A : Type} (l : list A) (i : nat) : result A :=
  match nth_error l i with
  | Some a => Ok a
  | None => Panic ErrIndex
  end.

(** ** The float64 interface *)

Class Float64 (F : Type) : Type := {
  of_int : Z -> F;          (* float64(n), and the literals 0, 1.0, -1.0, 100.0 *)
  fadd : F -> F -> F;
  fsub : F -> F -> F;
  fmul : F -> F -> F;
  fdiv : F -> F -> F;
  fsqrt : F -> F;           (* math.Sqrt *)
  fne : F -> F -> bool;     (* x != y *)
  fgt : F -> F -> bool      (* x > y *)
}.

Declare Scope f64_scope.
Delimit Scope f64_scope with f64.
Infix "+" := fadd : f64_scope.
Infix "-" := fsub : f64_scope.
Infix "*" := fmul : f64_scope.
Infix "/" := fdiv : f64_scope.

(** IEEE-754 binary64.  [float64(n)] of a Go [int] rounds to nearest. *)
#[export] Instance Binary64 : Float64 float := {
  of_int z :=
    if (z <? 0)%Z
    then PrimFloat.opp (PrimFloat.of_uint63 (Uint63.of_Z (- z)))
    else PrimFloat.of_uint63 (Uint63.of_Z z);
  fadd := PrimFloat.add;
  fsub := PrimFloat.sub;
  fmul := PrimFloat.mul;
  fdiv := PrimFloat.div;
  fsqrt := PrimFloat.sqrt;
  fne x y := negb (PrimFloat.eqb x y);
  fgt x y := PrimFloat.ltb y x
}.

(** The same operations without rounding. *)
#[export] Instance Exact : Float64 R := {
  of_int := IZR;
  fadd := Rplus;
  fsub := Rminus;
  fmul := Rmult;
  fdiv := Rdiv;
  fsqrt := R_sqrt.sqrt;
  fne x y := if Req_dec_T x y then false else true;
  fgt x y := if Rgt_dec x y then true else false
}.

(** ** gonum/floats *)

Module floats.
Section WithFloat.
Context {F : Type} `{Float64 F}.

(** [floats.Sum], in its portable form:
    [sum := 0; for _, v := range s { sum += v }]. *)
Definition Sum (s : list F) : F :=
  fold_left fadd s (of_int 0).
End WithFloat.
End floats.

(** ** gonum/stat

  [stat.MeanStdDev] is gonum's: it "returns the sample mean and unbiased
  standard deviation", that is, the variance is divided by [n - 1] (by
  [sumWeights - 1] when weights are given), through the corrected
  two-pass algorithm below. *)

Module stat.
Section WithFloat.
Context {F : Type} `{Float64 F}.

Definition ErrLength : string := "stat: slice length mismatch"%string.

(** One step of the weighted loop of [Mean]:
    [sumValues += w * x[i]; sumWeights += w]. *)
Definition meanStep (acc : F * F) (wx : F * F) : F * F :=
  (fst acc + fst wx * snd wx, snd acc + fst wx)%f64.

Definition Mean (x : list F) (weights : option (list F)) : result F :=
  match weights with
  | None => Ok (floats.Sum x / of_int (Z.of_nat (length x)))%f64
  | Some w =>
      if length x =? length w
      then
        let acc := fold_left meanStep (combine w x) (of_int 0, of_int 0) in
        Ok (fst acc / snd acc)%f64
      else Panic ErrLength
  end.

(** Unweighted loop of [MeanVariance]:
    [d := v - mean; ss += d * d; compensation += d]. *)
Definition varStep (mean : F) (acc : F * F) (v : F) : F * F :=
  let d := (v - mean)%f64 in
  (fst acc + d * d, snd acc + d)%f64.

(** Weighted loop of [MeanVariance]:
    [w := weights[i]; d := v - mean; wd := w * d; ss += wd * d;
     compensation += wd; sumWeights += w]. *)
Definition wvarStep (mean : F) (acc : F * F * F) (wv : F * F) : F * F * F :=
  let '(ss, compensation, sumWeights) := acc in
  let w := fst wv in
  let d := (snd wv - mean)%f64 in
  let wd := (w * d)%f64 in
  (ss + wd * d, compensation + wd, sumWeights + w)%f64.

Definition MeanVariance (x : list F) (weights : option (list F))
  : result (F * F) :=
  mean <- Mean x weights ;;
  match weights with
  | None =>
      let '(ss, compensation) :=
        fold_left (varStep mean) x (of_int 0, of_int 0) in
      Ok (mean,
          (ss - compensation * compensation / of_int (Z.of_nat (length x)))
            / of_int (Z.of_nat (length x) - 1))%f64
  | Some w =>
      let '(ss, compensation, sumWeights) :=
        fold_left (wvarStep mean) (combine w x)
                  (of_int 0, of_int 0, of_int 0) in
      Ok (mean,
          (ss - compensation * compensation / sumWeights)
            / (sumWeights - of_int 1))%f64
  end.

Definition MeanStdDev (x : list F) (weights : option (list F))
  : result (F * F) :=
  '(mean, variance) <- MeanVariance x weights ;;
  Ok (mean, fsqrt variance).
End WithFloat.
End stat.

(** ** gonum/mat: dense matrices

  A [mat.Dense] is kept as its list of rows together with the column
  count; every row of a matrix made by [NewDense] has [Cols] entries. *)

Module mat.
Section WithFloat.
Context {F : Type} `{Float64 F}.

Record Dense : Type := mkDense { Cols : nat; RowsOf : list (list F) }.

Definition ErrZeroLength : string :=
  "mat: zero length in matrix dimension"%string.
Definition ErrShape : string := "mat: dimension mismatch"%string.
Definition ErrRowAccess : string := "mat: row index out of range"%string.
Definition ErrColAccess : string := "mat: column index out of range"%string.
Definition ErrRowLength : string := "mat: row length mismatch"%string.

Definition Dims (m : Dense) : nat * nat := (length (RowsOf m), Cols m).

(** Row-major backing data cut into [r] rows of [c] entries. *)
Fixpoint chunks (c r : nat) (data : list F) : list (list F) :=
  match r with
  | O => []
  | S r' => firstn c data :: chunks c r' (skipn c data)
  end.

(** [NewDense(r, c, data)]; [data = nil] allocates zeros. *)
Definition NewDense (r c : nat) (data : option (list F)) : result Dense :=
  if (r =? 0) || (c =? 0) then Panic ErrZeroLength
  else
    match data with
    | None => Ok (mkDense c (repeat (repeat (of_int 0) c) r))
    | Some d =>
        if length d =? r * c then Ok (mkDense c (chunks c r d))
        else Panic ErrShape
    end.

(** [mat.Row(nil, i, m)]: a copy of row [i]. *)
Definition Row (i : nat) (m : Dense) : result (list F) :=
  match nth_error (RowsOf m) i with
  | Some row => Ok row
  | None => Panic ErrRowAccess
  end.

(** [mat.Col(nil, j, m)]: a copy of column [j]. *)
Definition Col (j : nat) (m : Dense) : result (list F) :=
  if j <? Cols m
  then Ok (map (fun row => nth j row (of_int 0)) (RowsOf m))
  else Panic ErrColAccess.

Fixpoint replace_nth {A : Type} (i : nat) (a : A) (l : list A) : list A :=
  match l, i with
  | [], _ => []
  | _ :: l', O => a :: l'
  | b :: l', S i' => b :: replace_nth i' a l'
  end.

(** [m.SetRow(i, src)]. *)
Definition SetRow (i : nat) (src : list F) (m : Dense) : result Dense :=
  if i <? length (RowsOf m)
  then
    if length src =? Cols m
    then Ok (mkDense (Cols m) (replace_nth i src (RowsOf m)))
    else Panic ErrRowLength
  else Panic ErrRowAccess.
End WithFloat.
Arguments Dense F : clear implicits.
End mat.

(** ** sort.Slice

  [sort.Slice] on a slice of at most twelve elements is Go's
  [insertionSortLessFunc]:
  [for i := a+1; i < b; i++ { for j := i; j > a && less(j, j-1); j-- { swap(j, j-1) } }].
  [sink less x rp] lets [x] travel left through the already sorted
  prefix, held in reverse as [rp], while [less x y]. *)

Module sort.
Fixpoint sink {A : Type} (less : A -> A -> bool) (x : A) (rp : list A)
  : list A :=
  match rp with
  | [] => [x]
  | y :: rp' => if less x y then y :: sink less x rp' else x :: rp
  end.

Definition Slice {A : Type} (less : A -> A -> bool) (l : list A) : list A :=
  rev (fold_left (fun rp x => sink less x rp) l []).
End sort.

(** [for i, a := range l]: the elements with their indices. *)
Definition enumerate {A : Type} (l : list A) : list (nat * A) :=
combine (seq 0 (length l)) l.

(** ** main.go *)

Section Engine.
Context {F : Type} `{Float64 F}.

Record HighSchool : Type := {
  HighSchool_Name : string;
  URL : string;
  USNews : Z;
  MathProficiency : F;
  ReadingProficiency : F;
  GraduationRate : F;
  CollegeReadiness : F
}.

Record RealEstate : Type := {
  SampleURL : string;
  MarketValue : Z;
  AssessedValue : Z
}.

Record Taxes : Type := {
  Taxes_Property : F;
  Sales : F;
  Income : F
}.

Record Crime : Type := {
  Violent : F;
  Crime_Property : F
}.

Record Climate : Type := {
  SunnyDays : F;
  RainInches : F;
  SnowInches : F
}.

Record Family : Type := {
  MilesToMargaret : F;
  MilesToNich : F;
  MilesToPeggy : F;
  MilesToRyan : F;
  MultipleSuites : F
}.

Record Livability : Type := {
  Politics : F;
  Culture : F;
  Running : F;
  WalkScore : F;
  MilesToAirport : F
}.

Record City : Type := {
  Name : string;
  Education : HighSchool;
  City_RealEstate : RealEstate;
  City_Taxes : Taxes;
  City_Crime : Crime;
  City_Climate : Climate;
  City_Family : Family;
  City_Livability : Livability
}.

Record ScoreSet : Type := {
  columnNames : list string;   (* city names *)
  rowNames : list string;      (* axes *)
  rowWeights : list F;         (* weight of each row *)
  scores : mat.Dense F
}.

Definition ScoreFunc : Type := City -> F.

Inductive ScoreGoal : Type := BIGGER | SMALLER.

(** The body of the normalisation loop:
    [val := (row[i] - mu) / sigma; if SMALLER == better { val = val * -1.0 }]. *)
Definition zscore (better : ScoreGoal) (mu sigma v : F) : F :=
  let val := ((v - mu) / sigma)%f64 in
  match better with
  | SMALLER => (val * of_int (-1))%f64
  | BIGGER => val
  end.

Definition NewScoreSet (axis : string) (cities : list City)
           (better : ScoreGoal) (f : ScoreFunc) : result ScoreSet :=
  let names := map Name cities in
  let row := map f cities in
  (* z-score normalize the row *)
  '(mu, sigma) <- stat.MeanStdDev row None ;;
  let row := map (zscore better mu sigma) row in
  m <- mat.NewDense 1 (length cities) (Some row) ;;
  Ok {| columnNames := names;
        rowNames := [axis];
        rowWeights := [of_int 1];
        scores := m |}.

(** *** Print

    [Print] writes a report to the log; the model returns what it
    writes.  [CDF] is [distuv.UnitNormal.CDF]. *)

Variable CDF : F -> F.

Record scoredCity : Type := { scored_Name : string; Score : F }.

(** The [less] of both [sort.Slice] calls:
    [scored[i].Score > scored[j].Score]. *)
Definition byScore (a b : scoredCity) : bool := fgt (Score a) (Score b).

Record AxisReport : Type := {
  percent : F;                 (* 100.0 * set.rowWeights[i] *)
  axis_name : string;
  ranking : list scoredCity
}.

Record Report : Type := {
  header : list string;
  data : mat.Dense F;
  axes : list AxisReport;
  final : list scoredCity
}.

(** A slice field that was only ever appended to is [nil] exactly when
    it is empty; gonum tests [weights == nil]. *)
Definition sliceArg (l : list F) : option (list F) :=
  match l with
  | [] => None
  | _ => Some l
  end.

Definition scoreCell (row : list F) (acc : list scoredCity)
           (jn : nat * string) : result (list scoredCity) :=
  v <- index row (fst jn) ;;
  Ok (acc ++ [{| scored_Name := snd jn;
                 Score := (of_int 100 * CDF v)%f64 |}]).

Definition printAxis (set : ScoreSet) (acc : list AxisReport)
           (ia : nat * string) : result (list AxisReport) :=
  w <- index (rowWeights set) (fst ia) ;;
  row <- mat.Row (fst ia) (scores set) ;;
  scored <- forM (scoreCell row) (enumerate (columnNames set)) [] ;;
  Ok (acc ++ [{| percent := (of_int 100 * w)%f64;
                 axis_name := snd ia;
                 ranking := sort.Slice byScore scored |}]).

Definition scoreColumn (set : ScoreSet) (acc : list scoredCity)
           (jn : nat * string) : result (list scoredCity) :=
  col <- mat.Col (fst jn) (scores set) ;;
  ms <- stat.MeanStdDev col (sliceArg (rowWeights set)) ;;
  Ok (acc ++ [{| scored_Name := snd jn;
                 Score := (of_int 100 * CDF (fst ms))%f64 |}]).

Definition Print (set : ScoreSet) : result Report :=
  per_axis <- forM (printAxis set) (enumerate (rowNames set)) [] ;;
  scored <- forM (scoreColumn set) (enumerate (columnNames set)) [] ;;
  Ok {| header := rowNames set;
        data := scores set;
        axes := per_axis;
        final := sort.Slice byScore scored |}.

(** *** Merge *)

Definition ErrFewSets : string := "Merge must have 2 or more ScoreSets"%string.
Definition ErrWeightsLength : string :=
  "merge sets/weights length must match"%string.
Definition ErrWeightsSum : string := "merge weights must sum to 1.0"%string.
Definition ErrColumns : string := "tnarg"%string.

(** [for _, weight := range weights { total += weight }]. *)
Definition total (weights : list F) : F :=
  fold_left fadd weights (of_int 0).

(** The inner loop of the first pass, for one row weight of set [i]. *)
Definition mergeWeight (n : nat) (weights : option (list F)) (i : nat)
           (acc : list F) (rowWeight : F) : result (list F) :=
  match weights with
  | None => Ok (acc ++ [(rowWeight / of_int (Z.of_nat n))%f64])
  | Some ws => w <- index ws i ;; Ok (acc ++ [(rowWeight * w)%f64])
  end.

(** The first pass, for set [i]: its row weights are appended, its
    column count is checked, its row count is added. *)
Definition mergeDims (n : nat) (weights : option (list F))
           (columns : list string) (st : list F * nat)
           (si : nat * ScoreSet) : result (list F * nat) :=
  rw <- forM (mergeWeight n weights (fst si)) (rowWeights (snd si)) (fst st) ;;
  let '(r, c) := mat.Dims (scores (snd si)) in
  if negb (c =? length columns) then Panic ErrColumns
  else Ok (rw, snd st + r).

(** The second pass, for row [j] of set [s]. *)
Definition mergeRow (s : ScoreSet) (st : list string * mat.Dense F * nat)
           (j : nat) : result (list string * mat.Dense F * nat) :=
  let '(names, m, rout) := st in
  name <- index (rowNames s) j ;;
  row <- mat.Row j (scores s) ;;
  m' <- mat.SetRow rout row m ;;
  Ok (names ++ [name], m', S rout).

Definition mergeRows (st : list string * mat.Dense F * nat) (s : ScoreSet)
  : result (list string * mat.Dense F * nat) :=
  forM (mergeRow s) (seq 0 (fst (mat.Dims (scores s)))) st.

Definition Merge (sets : list ScoreSet) (weights : option (list F))
  : result ScoreSet :=
  if length sets <? 2 then Panic ErrFewSets
  else
    _ <- match weights with
         | None => Ok tt
         | Some ws =>
             if negb (length sets =? length ws) then Panic ErrWeightsLength
             else if fne (total ws) (of_int 1) then Panic ErrWeightsSum
             else Ok tt
         end ;;
    s0 <- index sets 0 ;;
    let columns := columnNames s0 in
    '(rw, rows) <- forM (mergeDims (length sets) weights columns)
                        (enumerate sets) ([], 0) ;;
    m <- mat.NewDense rows (length columns) None ;;
    '(names, m', _) <- forM mergeRows sets ([], m, 0) ;;
    Ok {| columnNames := columns;
          rowNames := names;
          rowWeights := rw;
          scores := m' |}.

(** *** Well-formed tables

    The shape every [ScoreSet] made by [NewScoreSet] or [Merge] has. *)
Definition wf_dense (m : mat.Dense F) : Prop :=
  mat.RowsOf m <> [] /\ mat.Cols m <> 0 /\
  Forall (fun row => length row = mat.Cols m) (mat.RowsOf m).

Definition wf (s : ScoreSet) : Prop :=
  wf_dense (scores s) /\
  length (columnNames s) = mat.Cols (scores s) /\
  length (rowNames s) = length (mat.RowsOf (scores s)) /\
  length (rowWeights s) = length (mat.RowsOf (scores s)).
End Engine.

Arguments HighSchool F : clear implicits.
Arguments Taxes F : clear implicits.
Arguments Crime F : clear implicits.
Arguments Climate F : clear implicits.
Arguments Family F : clear implicits.
Arguments Livability F : clear implicits.
Arguments City F : clear implicits.
Arguments ScoreSet F : clear implicits.
Arguments ScoreFunc F : clear implicits.
Arguments scoredCity F : clear implicits.
Arguments AxisReport F : clear implicits.
Arguments Report F : clear implicits.


(** ** Vocabulary of the statements *)

Section Vocabulary.
Context {F : Type} `{Float64 F}.

Definition rows_of (s : ScoreSet F) : list (list F) := mat.RowsOf (scores s).

(** The only entry of column [j] of each row. *)
Definition column (j : nat) (s : ScoreSet F) : list F :=
  map (fun row => nth j row (of_int 0)) (rows_of s).

(** What [Merge] makes of one row weight of set [i]. *)
Definition scaled (n : nat) (weights : option (list F)) (i : nat) (rw : F) : F :=
  match weights with
  | None => (rw / of_int (Z.of_nat n))%f64
  | Some ws => (rw * nth i ws (of_int 0))%f64
  end.

Definition mergedWeights (n : nat) (weights : option (list F))
           (sets : list (nat * ScoreSet F)) : list F :=
  concat (map (fun si => map (scaled n weights (fst si)) (rowWeights (snd si)))
              sets).

(** [weights[i]] is in range for every [i < n]. *)
Definition weights_cover (weights : option (list F)) (n : nat) : Prop :=
  match weights with
  | None => True
  | Some ws => n <= length ws
  end.

(** The test [c != len(columns)] of [Merge], passed. *)
Definition cols_match (columns : list string) (s : ScoreSet F) : bool :=
  mat.Cols (scores s) =? length columns.

Definition wf_rows (c : nat) (s : ScoreSet F) : Prop :=
  Forall (fun row => length row = c) (rows_of s) /\
  length (rowNames s) = length (rows_of s).

Definition row_count (sets : list (ScoreSet F)) : nat :=
  list_sum (map (fun s => length (rows_of s)) sets).

(** The weights argument passes both checks of [Merge]. *)
Definition weights_ok (sets : list (ScoreSet F)) (weights : option (list F))
  : Prop :=
  match weights with
  | None => True
  | Some ws => length ws = length sets /\ fne (total ws) (of_int 1) = false
  end.

(** The table [Merge] returns when nothing panics. *)
Definition merged (s0 : ScoreSet F) (sets : list (ScoreSet F))
           (weights : option (list F)) : ScoreSet F :=
  {| columnNames := columnNames s0;
     rowNames := concat (map (@rowNames F) sets);
     rowWeights := mergedWeights (length sets) weights (enumerate sets);
     scores := mat.mkDense (length (columnNames s0))
                           (concat (map rows_of sets)) |}.

(** The three messages of the checks that open [Merge]. *)
Definition config_error (msg : string) : Prop :=
  msg = ErrFewSets \/ msg = ErrWeightsLength \/ msg = ErrWeightsSum.

(** The panics [Merge] can raise once its opening checks have passed. *)
Definition later_panic (msg : string) : Prop :=
  In msg [ErrIndex; ErrColumns; mat.ErrZeroLength; mat.ErrRowAccess;
          mat.ErrRowLength].

Definition emptySet : ScoreSet F :=
  {| columnNames := []; rowNames := []; rowWeights := [];
     scores := mat.mkDense 0 [] |}.
End Vocabulary.

(** ** The leaf table, written out *)

Section Leaf.
Context {F : Type} `{Float64 F}.

(** What [stat.MeanStdDev(x, nil)] returns. *)
Definition meanOf (x : list F) : F :=
  (floats.Sum x / of_int (Z.of_nat (length x)))%f64.

Definition varianceOf (x : list F) : F :=
  let acc := fold_left (stat.varStep (meanOf x)) x (of_int 0, of_int 0) in
  ((fst acc - snd acc * snd acc / of_int (Z.of_nat (length x)))
     / of_int (Z.of_nat (length x) - 1))%f64.

Definition stdOf (x : list F) : F := fsqrt (varianceOf x).

(** The row [NewScoreSet] stores for the raw values [raw]. *)
Definition zrow (better : ScoreGoal) (raw : list F) : list F :=
  map (zscore better (meanOf raw) (stdOf raw)) raw.

Definition leaf (axis : string) (cities : list (City F)) (better : ScoreGoal)
           (f : ScoreFunc F) : ScoreSet F :=
  {| columnNames := map (@Name F) cities;
     rowNames := [axis];
     rowWeights := [of_int 1];
     scores := mat.mkDense (length cities) [zrow better (map f cities)] |}.

(** A city that has only a name and a math proficiency; the extractor of
    the axis "/Education/Math" of [ScoreEducation] reads that field. *)
Definition plainCity (name : string) (v : F) : City F :=
  let z := of_int 0 in
  {| Name := name;
     Education := {| HighSchool_Name := EmptyString; URL := EmptyString;
                     USNews := 0%Z; MathProficiency := v;
                     ReadingProficiency := z; GraduationRate := z;
                     CollegeReadiness := z |};
     City_RealEstate := {| SampleURL := EmptyString; MarketValue := 0%Z;
                           AssessedValue := 0%Z |};
     City_Taxes := {| Taxes_Property := z; Sales := z; Income := z |};
     City_Crime := {| Violent := z; Crime_Property := z |};
     City_Climate := {| SunnyDays := z; RainInches := z; SnowInches := z |};
     City_Family := {| MilesToMargaret := z; MilesToNich := z;
                       MilesToPeggy := z; MilesToRyan := z;
                       MultipleSuites := z |};
     City_Livability := {| Politics := z; Culture := z; Running := z;
                           WalkScore := z; MilesToAirport := z |} |}.

Definition byMath : ScoreFunc F := fun city => MathProficiency (Education city).
End Leaf.

(** ** Binary64 fixtures *)

Module B64.
Local Open Scope string_scope.
Local Open Scope float_scope.

(** Three cities scoring 10, 20 and 30. *)
Definition abc : list (City float) :=
  [plainCity "A" 10; plainCity "B" 20; plainCity "C" 30].

Definition ab : list (City float) := [plainCity "A" 10; plainCity "B" 20].
Definition ba : list (City float) := [plainCity "B" 20; plainCity "A" 10].

(** Two cities with the same score. *)
Definition flat : list (City float) := [plainCity "A" 5; plainCity "B" 5].

(** A city whose score is missing. *)
Definition gap : list (City float) := [plainCity "A" 5; plainCity "B" infinity].

(** The tables [NewScoreSet] builds from [abc]: one row, weight 1.0. *)
Definition math : ScoreSet float :=
  {| columnNames := ["A"; "B"; "C"];
     rowNames := ["/Education/Math"];
     rowWeights := [1];
     scores := mat.mkDense 3 [[-1; 0; 1]] |}.

Definition reading : ScoreSet float :=
  {| columnNames := ["A"; "B"; "C"];
     rowNames := ["/Education/Reading"];
     rowWeights := [1];
     scores := mat.mkDense 3 [[-1; 0; 1]] |}.

(** [Merge] of [math] and [reading] under the weights 0.7 and 0.3. *)
Definition math_reading : ScoreSet float :=
  {| columnNames := ["A"; "B"; "C"];
     rowNames := ["/Education/Math"; "/Education/Reading"];
     rowWeights := [0.7; 0.3];
     scores := mat.mkDense 3 [[-1; 0; 1]; [-1; 0; 1]] |}.


Definition seven_three : list float := [0.7; 0.3].
Definition five_four : list float := [0.5; 0.4].

(** Population mean and standard deviation (division by [n]), as the
    words "population standard deviation" say. *)
Definition popStdDev (x : list float) : float :=
  let n := of_int (Z.of_nat (length x)) in
  let mu := floats.Sum x / n in
  PrimFloat.sqrt (floats.Sum (map (fun v => (v - mu) * (v - mu)) x) / n).
End B64.

(** ** Exact arithmetic: the sums of the statements *)

Module Sigma.
Local Open Scope string_scope.
Local Open Scope R_scope.

(** The sum of a list of reals. *)
Definition Rsum (l : list R) : R := fold_right Rplus 0 l.

(** The sum of the products [w_i * x_i]. *)
Definition dot (w x : list R) : R :=
  Rsum (map (fun p => fst p * snd p) (combine w x)).

(** The weighted mean: the sum of [w_i * x_i] divided by the sum of [w_i]. *)
Definition weightedMean (w x : list R) : R := dot w x / Rsum w.

(** Sample mean and the unbiased (n - 1) sample standard deviation. *)
Definition sampleMean (x : list R) : R := Rsum x / INR (length x).

Definition sumSquares (x : list R) : R :=
  Rsum (map (fun v => (v - sampleMean x) * (v - sampleMean x)) x).

Definition sampleStdDev (x : list R) : R :=
  sqrt (sumSquares x / (INR (length x) - 1)).

(** [+1] for [BIGGER], [-1] for [SMALLER]. *)
Definition direction (better : ScoreGoal) : R :=
  match better with
  | BIGGER => 1
  | SMALLER => -1
  end.


(** The composite scores of a table, column by column, before sorting:
    [100 * CDF(weighted mean of the column)]. *)
Definition composite (CDF : R -> R) (s : ScoreSet R) : list (scoredCity R) :=
  map (fun jn => {| scored_Name := snd jn;
                    Score := 100 * CDF (weightedMean (rowWeights s)
                                                     (column (fst jn) s)) |})
      (enumerate (columnNames s)).

(** Three cities scoring 10, 20 and 30. *)
Definition abc : list (City R) :=
  [plainCity "A" 10; plainCity "B" 20; plainCity "C" 30].

(** The tables [NewScoreSet] builds from [abc]. *)
Definition math : ScoreSet R :=
  {| columnNames := ["A"; "B"; "C"];
     rowNames := ["/Education/Math"];
     rowWeights := [1];
     scores := mat.mkDense 3 [[-1; 0; 1]] |}.

Definition reading : ScoreSet R :=
  {| columnNames := ["A"; "B"; "C"];
     rowNames := ["/Education/Reading"];
     rowWeights := [1];
     scores := mat.mkDense 3 [[-1; 0; 1]] |}.

Definition seven_three : list R := [7 / 10; 3 / 10].

(** Two axes that rank the three cities in opposite orders. *)
Definition both : ScoreSet R :=
  {| columnNames := ["A"; "B"; "C"];
     rowNames := ["/Education/Math"; "/Financial"];
     rowWeights := seven_three;
     scores := mat.mkDense 3 [[-1; 0; 1]; [1; 0; -1]] |}.

(** A stand-in for the normal CDF in the examples: it rises from 0 to 1
    and is 1/2 at 0. *)
Definition ramp (z : R) : R := Rmax 0 (Rmin 1 ((z + 3) / 6)).

(** The comparison [key a > key b], the shape of the [less] that
    [Print] passes to [sort.Slice]. *)
Definition byKey {A : Type} (key : A -> R) (a b : A) : bool :=
  if Rgt_dec (key a) (key b) then true else false.

(** Descending by score. *)
Definition descending (l : list (scoredCity R)) : Prop :=
  StronglySorted (fun a b => Score a >= Score b) l.
End Sigma.

(** ** Binary64: classes of values *)

(** Infinite or NaN, read on the specification of a float. *)
Definition SF_nonfinite (s : spec_float) : Prop :=
  match s with
  | S754_infinity _ | S754_nan => True
  | _ => False
  end.

(** A zero of either sign. *)
Definition SF_zero (s : spec_float) : Prop :=
  match s with
  | S754_zero _ => True
  | _ => False
  end.

(** ** The composite score, as [Print] computes it *)

Section Composite.
Context {F : Type} `{Float64 F}.

(** What [stat.MeanStdDev(x, w)] returns as the mean. *)
Definition wmeanOf (w x : list F) : F :=
  let acc := fold_left stat.meanStep (combine w x) (of_int 0, of_int 0) in
  (fst acc / snd acc)%f64.

(** The slice [scored] of the last block of [Print], before it is
    sorted. *)
Definition scoredColumns (CDF : F -> F) (s : ScoreSet F) : list (scoredCity F) :=
  map (fun jn => {| scored_Name := snd jn;
                    Score := (of_int 100 * CDF (wmeanOf (rowWeights s)
                                                        (column (fst jn) s)))%f64 |})
      (enumerate (columnNames s)).
End Composite.

(** ** main.go: the scoring tree

    The callers of [NewScoreSet] and [Merge].  [math.Pow], [math.Ceil]
    and [math.Abs] are parameters. *)

(** A Go [int64] (and [int], on 64-bit targets) wraps around. *)
Definition int64 (z : Z) : Z := ((z + 2 ^ 63) mod 2 ^ 64 - 2 ^ 63)%Z.

Section Tree.
Context {F : Type} `{Float64 F}.
Local Open Scope string_scope.

(** [float64(n)] for [n] in the [int64] range. *)
Definition float64_of_int (n : Z) : F :=
  if (n =? - 2 ^ 63)%Z then (of_int (- 2 ^ 62) * of_int 2)%f64 else of_int n.

(** The decimal literal [m / 10^k]: the quotient is rounded once, to the
    float64 nearest to the decimal, as the Go compiler rounds the
    literal. *)
Definition dec (m : Z) (k : nat) : F :=
  (of_int m / of_int (10 ^ Z.of_nat k))%f64.

Definition USAverageRainfall : F := dec 381 1.

Record Input : Type := {
  AnnualExpenses : Z;
  AnnualIncome : Z;
  HomeEquity : F;
  CandidateCities : list (City F)
}.

Variable Pow : F -> F -> F.    (* math.Pow *)
Variable Ceil : F -> F.        (* math.Ceil *)
Variable Abs : F -> F.         (* math.Abs *)

Definition ScoreEducation (input : Input) : result (ScoreSet F) :=
  usnews <- NewScoreSet "/Education/USNews" (CandidateCities input) BIGGER
              (fun city => float64_of_int (int64 (20000 - USNews (Education city)))) ;;
  math <- NewScoreSet "/Education/Math" (CandidateCities input) BIGGER
            (fun city => MathProficiency (Education city)) ;;
  reading <- NewScoreSet "/Education/Reading" (CandidateCities input) BIGGER
               (fun city => ReadingProficiency (Education city)) ;;
  graduation <- NewScoreSet "/Education/Graduation" (CandidateCities input) BIGGER
                  (fun city => GraduationRate (Education city)) ;;
  college <- NewScoreSet "/Education/CollegeReadiness" (CandidateCities input) BIGGER
               (fun city => CollegeReadiness (Education city)) ;;
  myscore <- Merge [math; reading; graduation; college]
                   (Some [dec 3 1; dec 3 1; dec 1 1; dec 3 1]) ;;
  Merge [usnews; myscore] None.

Definition mortgage (P : F) : F :=
  let apr := dec 320 2 in            (* Mortgage rate *)
  let Y := of_int 30 in              (* Years *)
  let n := Ceil (Y * of_int 12)%f64 in
  let r := (apr / of_int 12)%f64 in
  (P * (r / of_int 100 * Pow (of_int 1 + r / of_int 100) n)
     / (Pow (of_int 1 + r / of_int 100) n - of_int 1))%f64.

(** The extractor of the axis "/Financial". *)
Definition annualCost (input : Input) (city : City F) : F :=
  let loan :=
    (float64_of_int (int64 (MarketValue (City_RealEstate city)))
     - HomeEquity input)%f64 in
  let annual_income_tax :=
    (float64_of_int (int64 (AnnualIncome input)) * Income (City_Taxes city))%f64 in
  let annual_expenses :=
    (float64_of_int (int64 (AnnualExpenses input))
     + float64_of_int (int64 (AnnualExpenses input)) * Sales (City_Taxes city))%f64 in
  let annual_property_taxes :=
    (float64_of_int (int64 (AssessedValue (City_RealEstate city)))
     * Taxes_Property (City_Taxes city))%f64 in
  let monthly_payment := mortgage loan in
  (of_int 12 * monthly_payment + annual_income_tax + annual_expenses
   + annual_property_taxes)%f64.

Definition ScoreFinancial (input : Input) : result (ScoreSet F) :=
  NewScoreSet "/Financial" (CandidateCities input) SMALLER (annualCost input).

(** The extractor of the axis "/Livability/Climate/Precip". *)
Definition precipGap (city : City F) : F :=
  let score :=
    (USAverageRainfall
     - (RainInches (City_Climate city) + SnowInches (City_Climate city)))%f64 in
  if fgt (of_int 0) score then (of_int (-1) * score)%f64 else score.

Definition ScoreClimate (input : Input) : result (ScoreSet F) :=
  sunshine <- NewScoreSet "/Livability/Climate/Sunshine" (CandidateCities input)
                BIGGER (fun city => SunnyDays (City_Climate city)) ;;
  snow <- NewScoreSet "/Livability/Climate/Snow" (CandidateCities input)
            BIGGER (fun city => SnowInches (City_Climate city)) ;;
  precip <- NewScoreSet "/Livability/Climate/Precip" (CandidateCities input)
              SMALLER precipGap ;;
  Merge [sunshine; precip; snow] (Some [dec 45 2; dec 45 2; dec 10 2]).

Definition ScoreFamily (input : Input) : result (ScoreSet F) :=
  margaret <- NewScoreSet "/Family/Margaret" (CandidateCities input) SMALLER
                (fun city => MilesToMargaret (City_Family city)) ;;
  nich <- NewScoreSet "/Family/Nich" (CandidateCities input) SMALLER
            (fun city => MilesToNich (City_Family city)) ;;
  peggy <- NewScoreSet "/Family/Peggy" (CandidateCities input) SMALLER
             (fun city => MilesToPeggy (City_Family city)) ;;
  ryan <- NewScoreSet "/Family/Ryan" (CandidateCities input) SMALLER
            (fun city => MilesToRyan (City_Family city)) ;;
  Merge [margaret; nich; peggy; ryan]
        (Some [dec 35 2; dec 20 2; dec 35 2; dec 10 2]).

Definition ScoreLivability (input : Input) : result (ScoreSet F) :=
  crime <- NewScoreSet "/Livability/Crime" (CandidateCities input) SMALLER
             (fun city => (dec 3 1 * Violent (City_Crime city)
                           + dec 7 1 * Crime_Property (City_Crime city))%f64) ;;
  politics <- NewScoreSet "/Livability/Politics" (CandidateCities input) BIGGER
                (fun city => (of_int 1
                              - Abs (dec 70 2 - Politics (City_Livability city)))%f64) ;;
  climate <- ScoreClimate input ;;
  culture <- NewScoreSet "/Livability/Culture" (CandidateCities input) BIGGER
               (fun city => Culture (City_Livability city)) ;;
  running <- NewScoreSet "/Livability/Running" (CandidateCities input) BIGGER
               (fun city => Running (City_Livability city)) ;;
  walkscore <- NewScoreSet "/Livability/WalkScore" (CandidateCities input) BIGGER
                 (fun city => WalkScore (City_Livability city)) ;;
  airport <- NewScoreSet "/Livability/Airport" (CandidateCities input) SMALLER
               (fun city => MilesToAirport (City_Livability city)) ;;
  inner <- Merge [crime; politics; culture; running; climate; walkscore] None ;;
  Merge [inner; airport] (Some [dec 95 2; dec 5 2]).

(** [main], from the decoded input to the merged table. *)
Definition mainMerged (input : Input) : result (ScoreSet F) :=
  education <- ScoreEducation input ;;
  financial <- ScoreFinancial input ;;
  family <- ScoreFamily input ;;
  livability <- ScoreLivability input ;;
  Merge [education; family; financial; livability]
        (Some [dec 33 2; dec 33 2; dec 17 2; dec 17 2]).

(** [main], from the decoded input to the report it prints. *)
Definition mainReport (CDF : F -> F) (input : Input) : result (Report F) :=
  merged <- mainMerged input ;;
  Print CDF merged.
End Tree.

Arguments Input F : clear implicits.

(** ** Tables over a list of alternatives *)

Section Tables.
Context {F : Type} `{Float64 F}.

(** A well-formed table whose columns are [cols]. *)
Definition table_over (cols : list string) (s : ScoreSet F) : Prop :=
  wf s /\ columnNames s = cols.


(** What a table is known by, once built: its columns, its row labels
    and its row weights. *)
Definition known (cols rows : list string) (ws : list F) (s : ScoreSet F) : Prop :=
  table_over cols s /\ rowNames s = rows /\ rowWeights s = ws.

(** The tables the program can make: leaves, and merges of such
    tables. *)
#[local] Set Warnings "-register-all".
Inductive Built : ScoreSet F -> Prop :=
| Built_leaf (axis : string) (cities : list (City F)) (better : ScoreGoal)
             (f : ScoreFunc F) (s : ScoreSet F) :
    NewScoreSet axis cities better f = Ok s -> Built s
| Built_merge (sets : list (ScoreSet F)) (weights : option (list F))
              (s : ScoreSet F) :
    Forall Built sets -> Merge sets weights = Ok s -> Built s.

(** The cells of row [row], as [Print] scores them before sorting. *)
Definition scoredCells (CDF : F -> F) (names : list string) (row : list F)
  : list (scoredCity F) :=
  map (fun jn => {| scored_Name := snd jn;
                    Score := (of_int 100 * CDF (nth (fst jn) row (of_int 0)))%f64 |})
      (enumerate names).

(** The per-axis blocks of [Print]: for row [i], the display weight, the
    label and the ranking of the row's cells. *)
Definition axisReports (CDF : F -> F) (s : ScoreSet F) : list (AxisReport F) :=
  map (fun ia => {| percent := (of_int 100 * nth (fst ia) (rowWeights s) (of_int 0))%f64;
                    axis_name := snd ia;
                    ranking := sort.Slice byScore
                                 (scoredCells CDF (columnNames s)
                                              (nth (fst ia) (rows_of s) [])) |})
      (enumerate (rowNames s)).
End Tables.

(** The row labels of the table [main] prints, in order. *)
Definition educationRows : list string :=
  ["/Education/USNews"; "/Education/Math"; "/Education/Reading";
   "/Education/Graduation"; "/Education/CollegeReadiness"]%string.

Definition familyRows : list string :=
  ["/Family/Margaret"; "/Family/Nich"; "/Family/Peggy"; "/Family/Ryan"]%string.

Definition climateRows : list string :=
  ["/Livability/Climate/Sunshine"; "/Livability/Climate/Precip";
   "/Livability/Climate/Snow"]%string.

Definition livabilityRows : list string :=
  (["/Livability/Crime"; "/Livability/Politics"; "/Livability/Culture";
    "/Livability/Running"]%string
   ++ climateRows
   ++ ["/Livability/WalkScore"; "/Livability/Airport"]%string).

Definition mainRows : list string :=
  educationRows ++ familyRows ++ ["/Financial"%string] ++ livabilityRows.

(** The row weights of the tables of the scoring tree: [times w] is a
    set's share under an explicit weight, [over n] its share of an equal
    split among [n] sets. *)
Section TreeWeights.
Context {F : Type} `{Float64 F}.

Definition times (w : F) (l : list F) : list F := map (fun rw => (rw * w)%f64) l.
Definition over (n : Z) (l : list F) : list F :=
  map (fun rw => (rw / of_int n)%f64) l.
Definition one : list F := [of_int 1].

Definition educationWeights : list F :=
  over 2 one
  ++ over 2 (times (dec 3 1) one ++ times (dec 3 1) one
             ++ times (dec 1 1) one ++ times (dec 3 1) one).

Definition climateWeights : list F :=
  times (dec 45 2) one ++ times (dec 45 2) one ++ times (dec 10 2) one.

Definition familyWeights : list F :=
  times (dec 35 2) one ++ times (dec 20 2) one
  ++ times (dec 35 2) one ++ times (dec 10 2) one.

Definition livabilityWeights : list F :=
  times (dec 95 2)
        (over 6 one ++ over 6 one ++ over 6 one ++ over 6 one
         ++ over 6 climateWeights ++ over 6 one)
  ++ times (dec 5 2) one.

Definition mainWeights : list F :=
  times (dec 33 2) educationWeights ++ times (dec 33 2) familyWeights
  ++ times (dec 17 2) one ++ times (dec 17 2) livabilityWeights.

(** Every weight vector written in the scoring tree passes the test
    [total != 1.0] of [Merge]. *)
Definition literals_ok : Prop :=
  fne (total [dec 3 1; dec 3 1; dec 1 1; dec 3 1]) (of_int 1) = false /\
  fne (total [dec 45 2; dec 45 2; dec 10 2]) (of_int 1) = false /\
  fne (total [dec 35 2; dec 20 2; dec 35 2; dec 10 2]) (of_int 1) = false /\
  fne (total [dec 95 2; dec 5 2]) (of_int 1) = false /\
  fne (total [dec 33 2; dec 33 2; dec 17 2; dec 17 2]) (of_int 1) = false.
End TreeWeights.

(** A stand-in for the normal CDF in the binary64 examples. *)
Definition ramp64 (z : float) : float := (0.5 + z / 8)%float.

(** A weakly increasing function. *)
Definition monotone (g : R -> R) : Prop :=
  forall a b : R, (a <= b)%R -> (g a <= g b)%R.

(** A strictly increasing function. *)
Definition increasing (g : R -> R) : Prop :=
  forall a b : R, (a < b)%R -> (g a < g b)%R.

(** The other goal. *)
Definition opposite (better : ScoreGoal) : ScoreGoal :=
  match better with
  | BIGGER => SMALLER
  | SMALLER => BIGGER
  end.

(** The percentile of a raw value [v] on an axis whose raw values are
    [raw]: 100 times the CDF of its z-score. *)
Definition leafScore (CDF : R -> R) (better : ScoreGoal) (raw : list R) (v : R) : R :=
  (100 * CDF (Sigma.direction better *
              ((v - Sigma.sampleMean raw) / Sigma.sampleStdDev raw)))%R.

(** A strictly increasing stand-in for the normal CDF in the examples. *)
Definition line (z : R) : R := (1 / 2 + z / 8)%R.

(** An input with the three cities scoring 10, 20 and 30, in binary64
    and in exact arithmetic. *)
Definition input64 : Input float :=
  {| AnnualExpenses := 60000; AnnualIncome := 100000;
     HomeEquity := 250000%float; CandidateCities := B64.abc |}.

Definition inputR : Input R :=
  {| AnnualExpenses := 60000; AnnualIncome := 100000;
     HomeEquity := 250000%R; CandidateCities := Sigma.abc |}.

(** The input with another home equity. *)
Definition withHomeEquity {F : Type} (input : Input F) (equity : F) : Input F :=
  {| AnnualExpenses := AnnualExpenses input;
     AnnualIncome := AnnualIncome input;
     HomeEquity := equity;
     CandidateCities := CandidateCities input |}.

(** A city known by its income tax rate alone, and an input with two
    such cities. *)
Definition taxedCity (name : string) (rate : R) : City R :=
  {| Name := name;
     Education := Education (plainCity name 0%R);
     City_RealEstate := City_RealEstate (plainCity name 0%R);
     City_Taxes := {| Taxes_Property := 0%R; Sales := 0%R; Income := rate |};
     City_Crime := City_Crime (plainCity name 0%R);
     City_Climate := City_Climate (plainCity name 0%R);
     City_Family := City_Family (plainCity name 0%R);
     City_Livability := City_Livability (plainCity name 0%R) |}.

Definition taxedR : Input R :=
  {| AnnualExpenses := 60000; AnnualIncome := 100000;
     HomeEquity := 250000%R;
     CandidateCities := [taxedCity "A" 0%R; taxedCity "B" (5 / 100)%R] |}.

Unset Implicit Arguments.

(** * Loops and lookups *)

Lemma bind_Ok {A B : Type} (a : A) (k : A -> result B) : bind (Ok a) k = k a.
Proof. reflexivity. Qed.

Section ForM.
Context {A S : Type}.

Lemma forM_app (body : S -> A -> result S) (l1 l2 : list A) (s : S) :
  forM body (l1 ++ l2) s = (s' <- forM body l1 s ;; forM body l2 s').
Proof.
  revert s; induction l1 as [|a l1 IH]; intros s; simpl; [reflexivity|].
  destruct (body s a) as [s'|msg]; simpl; [apply IH | reflexivity].
Qed.

(** A loop whose body only appends [g a] to the state. *)
Lemma forM_append {B : Type} (body : list B -> A -> result (list B))
      (g : A -> B) (l : list A) :
  (forall acc a, In a l -> body acc a = Ok (acc ++ [g a])) ->
  forall acc, forM body l acc = Ok (acc ++ map g l).
Proof.
  induction l as [|a l IH]; intros Hb acc; simpl.
  - now rewrite app_nil_r.
  - rewrite Hb by now left. simpl.
    rewrite IH by (intros; apply Hb; now right).
    now rewrite <- app_assoc.
Qed.

(** A panic of the loop is a panic of its body. *)
Lemma forM_panic (P : string -> Prop) (body : S -> A -> result S) (l : list A) :
  (forall s a msg, body s a = Panic msg -> P msg) ->
  forall s msg, forM body l s = Panic msg -> P msg.
Proof.
  intros Hb. induction l as [|a l IH]; intros s msg; simpl; [discriminate|].
  destruct (body s a) as [s'|msg'] eqn:E; simpl.
  - apply IH.
  - intros [= <-]. eapply Hb, E.
Qed.
End ForM.

Lemma index_Ok {A : Type} (l : list A) (i : nat) (d : A) :
  i < length l -> index l i = Ok (nth i l d).
Proof.
  intros Hi. unfold index.
  now rewrite (nth_error_nth' l d Hi).
Qed.

Lemma index_panic {A : Type} (l : list A) (i : nat) (msg : string) :
  index l i = Panic msg -> msg = ErrIndex.
Proof. unfold index. destruct (nth_error l i); congruence. Qed.

Lemma replace_nth_app {A : Type} (pre : list A) (a b : A) (post : list A) :
  mat.replace_nth (length pre) a (pre ++ b :: post) = pre ++ a :: post.
Proof. induction pre as [|p pre IH]; simpl; [reflexivity | now rewrite IH]. Qed.

Lemma skipn_cons_nth {A : Type} (d : A) (l : list A) (j : nat) :
  j < length l -> skipn j l = nth j l d :: skipn (S j) l.
Proof.
  revert j; induction l as [|a l IH]; intros j Hj; [simpl in Hj; lia|].
  destruct j as [|j]; [reflexivity|].
  change (skipn j l = nth j l d :: skipn (S j) l).
  apply IH. simpl in Hj. lia.
Qed.

(** * Merge *)

Section MergeFacts.
Context {F : Type} `{Float64 F}.

Lemma mergeWeight_loop n weights i rws acc :
  weights_cover weights (S i) ->
  forM (mergeWeight n weights i) rws acc = Ok (acc ++ map (scaled n weights i) rws).
Proof.
  intros Hc. apply forM_append. intros acc' rw _.
  unfold mergeWeight, scaled. destruct weights as [ws|]; [|reflexivity].
  simpl in Hc. now rewrite (index_Ok ws i (of_int 0) Hc).
Qed.

(** The first pass: the scaled row weights of all sets in order and the
    total row count, or the panic of the column test. *)
Lemma mergeDims_loop n weights columns sets : forall k acc rows,
  weights_cover weights (k + length sets) ->
  forM (mergeDims n weights columns) (combine (seq k (length sets)) sets) (acc, rows) =
  if forallb (cols_match columns) sets
  then Ok (acc ++ mergedWeights n weights (combine (seq k (length sets)) sets),
           rows + row_count sets)
  else Panic ErrColumns.
Proof.
  induction sets as [|s sets IH]; intros k acc rows Hc; simpl.
  - unfold mergedWeights, row_count; simpl. now rewrite app_nil_r, Nat.add_0_r.
  - unfold mergeDims at 1. simpl fst; simpl snd.
    rewrite mergeWeight_loop.
    2:{ destruct weights; simpl in *; [lia | exact I]. }
    simpl. unfold cols_match at 1.
    destruct (mat.Cols (scores s) =? length columns); simpl; [|reflexivity].
    rewrite IH.
    2:{ destruct weights; simpl in *; [lia | exact I]. }
    destruct (forallb (cols_match columns) sets); [|reflexivity].
    unfold mergedWeights, row_count. simpl. rewrite <- app_assoc.
    f_equal. f_equal. unfold rows_of. lia.
Qed.

(** The second pass on one set: rows [j .. j+k) are copied to the
    positions that follow the rows already written. *)
Lemma mergeRow_loop (s : ScoreSet F) (c : nat) :
  Forall (fun row => length row = c) (rows_of s) ->
  forall k j names pre fill,
    j + k <= length (rowNames s) ->
    j + k <= length (rows_of s) ->
    k <= length fill ->
    forM (mergeRow s) (seq j k) (names, mat.mkDense c (pre ++ fill), length pre) =
    Ok (names ++ firstn k (skipn j (rowNames s)),
        mat.mkDense c (pre ++ firstn k (skipn j (rows_of s)) ++ skipn k fill),
        length pre + k).
Proof.
  intros Hc. induction k as [|k IH]; intros j names pre fill Hn Hr Hf; simpl.
  - now rewrite app_nil_r, Nat.add_0_r.
  - destruct fill as [|x fill]; [simpl in Hf; lia|].
    rewrite (index_Ok (rowNames s) j EmptyString) by lia. simpl.
    unfold mat.Row. fold (rows_of s).
    rewrite (nth_error_nth' (rows_of s) []) by lia. simpl.
    unfold mat.SetRow. simpl mat.RowsOf. simpl mat.Cols.
    replace (length pre <? length (pre ++ x :: fill)) with true
      by (symmetry; apply Nat.ltb_lt; rewrite length_app; simpl; lia).
    replace (length (nth j (rows_of s) []) =? c) with true.
    2:{ symmetry. apply Nat.eqb_eq.
        rewrite Forall_forall in Hc. apply Hc. apply nth_In. lia. }
    simpl. rewrite replace_nth_app.
    specialize (IH (S j) (names ++ [nth j (rowNames s) EmptyString])
                   (pre ++ [nth j (rows_of s) []]) fill).
    rewrite <- app_assoc in IH. simpl in IH.
    rewrite length_app in IH. simpl in IH.
    replace (length pre + 1) with (S (length pre)) in IH by lia.
    rewrite IH by (simpl in *; lia).
    rewrite (skipn_cons_nth EmptyString (rowNames s) j) by lia.
    rewrite (skipn_cons_nth [] (rows_of s) j) by lia.
    simpl. rewrite <- !app_assoc. simpl.
    do 2 f_equal. lia.
Qed.

Lemma mergeRows_set (s : ScoreSet F) (c : nat) names pre fill :
  wf_rows c s ->
  length (rows_of s) <= length fill ->
  mergeRows (names, mat.mkDense c (pre ++ fill), length pre) s =
  Ok (names ++ rowNames s,
      mat.mkDense c (pre ++ rows_of s ++ skipn (length (rows_of s)) fill),
      length pre + length (rows_of s)).
Proof.
  intros [Hc Hn] Hf. unfold mergeRows. simpl fst. fold (rows_of s).
  rewrite (mergeRow_loop s c Hc) by lia.
  simpl skipn. rewrite <- Hn at 1. rewrite !firstn_all. reflexivity.
Qed.

Lemma mergeRows_loop (c : nat) (sets : list (ScoreSet F)) :
  Forall (wf_rows c) sets ->
  forall names pre fill,
    row_count sets <= length fill ->
    forM mergeRows sets (names, mat.mkDense c (pre ++ fill), length pre) =
    Ok (names ++ concat (map (@rowNames F) sets),
        mat.mkDense c (pre ++ concat (map rows_of sets) ++ skipn (row_count sets) fill),
        length pre + row_count sets).
Proof.
  induction 1 as [|s sets Hs Hsets IH]; intros names pre fill Hf; simpl.
  - now rewrite app_nil_r, Nat.add_0_r.
  - unfold row_count in Hf. simpl in Hf. fold (row_count sets) in Hf.
    rewrite mergeRows_set by (trivial; lia). simpl.
    specialize (IH (names ++ rowNames s) (pre ++ rows_of s)
                   (skipn (length (rows_of s)) fill)).
    rewrite <- app_assoc, length_app in IH.
    rewrite IH by (rewrite length_skipn; lia).
    rewrite skipn_skipn. rewrite <- !app_assoc.
    unfold row_count. simpl. fold (row_count sets).
    rewrite (Nat.add_comm (row_count sets)), Nat.add_assoc. reflexivity.
Qed.

Lemma Merge_checks_pass (sets : list (ScoreSet F)) weights :
  2 <= length sets -> weights_ok sets weights ->
  Merge sets weights =
  (s0 <- index sets 0 ;;
   let columns := columnNames s0 in
   '(rw, rows) <- forM (mergeDims (length sets) weights columns)
                       (enumerate sets) ([], 0) ;;
   m <- mat.NewDense rows (length columns) None ;;
   '(names, m', _) <- forM mergeRows sets ([], m, 0) ;;
   Ok {| columnNames := columns; rowNames := names;
         rowWeights := rw; scores := m' |}).
Proof.
  intros Hn Hw. unfold Merge.
  replace (length sets <? 2) with false by (symmetry; apply Nat.ltb_ge; lia).
  destruct weights as [ws|]; simpl in Hw; [|reflexivity].
  destruct Hw as [Hl Hs]. rewrite Hl, Nat.eqb_refl. simpl. rewrite Hs.
  reflexivity.
Qed.

Lemma weights_ok_cover sets weights :
  weights_ok sets weights -> weights_cover weights (0 + length sets).
Proof. destruct weights; simpl; [lia | trivial]. Qed.

Lemma row_count_pos (sets : list (ScoreSet F)) :
  sets <> [] -> Forall wf sets -> row_count sets <> 0.
Proof.
  destruct sets as [|s sets]; [congruence|]. intros _ Hwf.
  inversion Hwf as [|? ? [[Hr _] _] _]; subst.
  unfold row_count; simpl. unfold rows_of.
  destruct (mat.RowsOf (scores s)); [congruence | simpl; lia].
Qed.

Lemma wf_rows_of_wf (c : nat) (s : ScoreSet F) :
  wf s -> mat.Cols (scores s) = c -> wf_rows c s.
Proof.
  intros [[_ [_ Hrows]] [_ [Hn _]]] Hc. subst c. split; assumption.
Qed.

(** [Merge] on well-formed sets with as many columns as the first. *)
Lemma Merge_ok (s0 : ScoreSet F) (rest : list (ScoreSet F)) weights :
  rest <> [] ->
  weights_ok (s0 :: rest) weights ->
  Forall wf (s0 :: rest) ->
  forallb (cols_match (columnNames s0)) (s0 :: rest) = true ->
  Merge (s0 :: rest) weights = Ok (merged s0 (s0 :: rest) weights).
Proof.
  intros Hrest Hw Hwf Hcols. remember (s0 :: rest) as sets eqn:Hsets.
  assert (Hlen : 2 <= length sets)
    by (subst sets; destruct rest; [congruence | simpl; lia]).
  assert (Hidx : index sets 0 = Ok s0) by (subst sets; reflexivity).
  rewrite Merge_checks_pass by assumption.
  rewrite Hidx, bind_Ok. cbv beta zeta. unfold enumerate.
  rewrite mergeDims_loop by (apply weights_ok_cover; assumption).
  rewrite Hcols, bind_Ok. cbv beta iota. rewrite app_nil_l. simpl "+".
  assert (Hrc : row_count sets <> 0)
    by (apply row_count_pos; [subst sets; congruence | assumption]).
  assert (Hc0 : length (columnNames s0) <> 0).
  { rewrite Hsets in Hwf.
    inversion Hwf as [|? ? [[_ [Hc _]] [Hl _]] _]; subst. now rewrite Hl. }
  unfold mat.NewDense.
  replace (row_count sets =? 0) with false by (symmetry; now apply Nat.eqb_neq).
  replace (length (columnNames s0) =? 0) with false
    by (symmetry; now apply Nat.eqb_neq).
  simpl orb. cbv iota. rewrite bind_Ok. cbv beta.
  pose proof (mergeRows_loop (length (columnNames s0)) sets) as Hloop.
  assert (Hrows : Forall (wf_rows (length (columnNames s0))) sets).
  { rewrite Forall_forall in *. intros s Hs. apply wf_rows_of_wf; [auto|].
    rewrite forallb_forall in Hcols. apply Nat.eqb_eq. apply (Hcols s Hs). }
  specialize (Hloop Hrows [] []
    (repeat (repeat (of_int 0) (length (columnNames s0))) (row_count sets))).
  simpl app in Hloop. simpl length in Hloop.
  rewrite Hloop by (rewrite repeat_length; lia).
  rewrite bind_Ok. cbv beta iota. unfold merged. do 2 f_equal.
  rewrite skipn_all2 by (rewrite repeat_length; lia).
  now rewrite app_nil_r.
Qed.

(** [Merge] when some set fails the column test. *)
Lemma Merge_columns (sets : list (ScoreSet F)) weights :
  2 <= length sets ->
  weights_ok sets weights ->
  forallb (cols_match (columnNames (hd emptySet sets))) sets = false ->
  Merge sets weights = Panic ErrColumns.
Proof.
  intros Hlen Hw Hcols. rewrite Merge_checks_pass by assumption.
  destruct sets as [|s0 rest]; [simpl in Hlen; lia|].
  change (index (s0 :: rest) 0) with (Ok (A:=ScoreSet F) s0). rewrite bind_Ok.
  cbv beta zeta. unfold enumerate.
  rewrite mergeDims_loop by (apply weights_ok_cover; assumption).
  simpl hd in Hcols. rewrite Hcols. reflexivity.
Qed.
End MergeFacts.

(** * NewScoreSet *)

Section LeafFacts.
Context {F : Type} `{Float64 F}.

Lemma MeanStdDev_nil_weights (x : list F) :
  stat.MeanStdDev x None = Ok (meanOf x, stdOf x).
Proof.
  unfold stat.MeanStdDev, stat.MeanVariance, stat.Mean. rewrite bind_Ok.
  unfold stdOf, varianceOf, meanOf.
  destruct (fold_left _ x _) as [ss compensation]. reflexivity.
Qed.

(** [NewScoreSet] returns on every non-empty list of cities, whatever
    the extractor yields. *)
Lemma NewScoreSet_leaf axis (cities : list (City F)) better f :
  cities <> [] ->
  NewScoreSet axis cities better f = Ok (leaf axis cities better f).
Proof.
  intros Hne. unfold NewScoreSet.
  rewrite MeanStdDev_nil_weights, bind_Ok. cbv beta iota zeta.
  unfold mat.NewDense.
  replace (length cities =? 0) with false
    by (symmetry; apply Nat.eqb_neq; destruct cities; simpl; congruence).
  simpl orb. cbv iota.
  rewrite !length_map, Nat.mul_1_l, Nat.eqb_refl, bind_Ok.
  unfold leaf, zrow. simpl mat.chunks.
  rewrite firstn_all2 by (rewrite !length_map; lia). reflexivity.
Qed.

Lemma leaf_wf axis (cities : list (City F)) better f :
  cities <> [] -> wf (leaf axis cities better f).
Proof.
  intros Hne. unfold wf, wf_dense, leaf, zrow; simpl.
  repeat split; try discriminate.
  - destruct cities; simpl; congruence.
  - constructor; [|constructor]. now rewrite !length_map.
  - now rewrite length_map.
Qed.

Lemma NewScoreSet_wf axis (cities : list (City F)) better f s :
  NewScoreSet axis cities better f = Ok s -> wf s.
Proof.
  destruct cities as [|c cities].
  - unfold NewScoreSet. rewrite MeanStdDev_nil_weights, bind_Ok. discriminate.
  - rewrite NewScoreSet_leaf by discriminate. intros [= <-].
    apply leaf_wf. discriminate.
Qed.
End LeafFacts.

(** * Merge: what it returns and when it panics *)

Section MergeClaims.
Context {F : Type} `{Float64 F}.

Lemma mergedWeights_nil (n : nat) (sets : list (ScoreSet F)) : forall k,
  mergedWeights n None (combine (seq k (length sets)) sets) =
  concat (map (fun s => map (fun rw => (rw / of_int (Z.of_nat n))%f64)
                            (rowWeights s)) sets).
Proof.
  unfold mergedWeights.
  induction sets as [|s sets IH]; intros k; simpl; [reflexivity|].
  now rewrite IH.
Qed.

Lemma mergedWeights_explicit (n : nat) (ws : list F) (sets : list (ScoreSet F)) :
  forall k, k + length sets <= length ws ->
  mergedWeights n (Some ws) (combine (seq k (length sets)) sets) =
  concat (map (fun p => map (fun rw => (rw * fst p)%f64) (rowWeights (snd p)))
              (combine (skipn k ws) sets)).
Proof.
  unfold mergedWeights.
  induction sets as [|s sets IH]; intros k Hk; simpl.
  - now rewrite combine_nil.
  - simpl in Hk. rewrite (skipn_cons_nth (of_int 0) ws k) by lia. simpl.
    rewrite IH by lia. reflexivity.
Qed.

Lemma mergedWeights_length (n : nat) weights (sets : list (ScoreSet F)) :
  forall k,
  length (mergedWeights n weights (combine (seq k (length sets)) sets)) =
  list_sum (map (fun s => length (rowWeights s)) sets).
Proof.
  unfold mergedWeights.
  induction sets as [|s sets IH]; intros k; simpl; [reflexivity|].
  now rewrite length_app, length_map, IH.
Qed.

(** The conditions under which [Merge] returns. *)
Lemma Merge_Ok_inv (sets : list (ScoreSet F)) weights out :
  Merge sets weights = Ok out ->
  2 <= length sets /\ weights_ok sets weights /\
  forallb (cols_match (columnNames (hd emptySet sets))) sets = true.
Proof.
  intros HM.
  assert (Hlen : 2 <= length sets).
  { unfold Merge in HM. destruct (length sets <? 2) eqn:E; [discriminate|].
    apply Nat.ltb_ge in E. exact E. }
  assert (Hw : weights_ok sets weights).
  { unfold Merge in HM.
    replace (length sets <? 2) with false in HM
      by (symmetry; apply Nat.ltb_ge; lia).
    destruct weights as [ws|]; simpl; [|exact I].
    destruct (length sets =? length ws) eqn:El; simpl in HM; [|discriminate].
    destruct (fne (total ws) (of_int 1)) eqn:Es; [discriminate|].
    apply Nat.eqb_eq in El. now split. }
  repeat split; try assumption.
  destruct (forallb _ sets) eqn:E; [reflexivity|].
  rewrite (Merge_columns sets weights Hlen Hw E) in HM. discriminate.
Qed.

Lemma Merge_Ok_merged (sets : list (ScoreSet F)) weights out :
  Forall wf sets ->
  Merge sets weights = Ok out ->
  out = merged (hd emptySet sets) sets weights.
Proof.
  intros Hwf HM. destruct (Merge_Ok_inv _ _ _ HM) as [Hlen [Hw Hc]].
  destruct sets as [|s0 rest]; [simpl in Hlen; lia|].
  simpl hd in *. rewrite Merge_ok in HM; trivial.
  - congruence.
  - destruct rest; [simpl in Hlen; lia | discriminate].
Qed.

(** [Merge] keeps tables well-formed. *)
Lemma Merge_wf (sets : list (ScoreSet F)) weights out :
  Forall wf sets -> Merge sets weights = Ok out -> wf out.
Proof.
  intros Hwf HM. destruct (Merge_Ok_inv _ _ _ HM) as [Hlen [Hw Hc]].
  rewrite (Merge_Ok_merged _ _ _ Hwf HM).
  destruct sets as [|s0 rest]; [simpl in Hlen; lia|]. simpl hd in *.
  assert (Hrows : Forall (wf_rows (length (columnNames s0))) (s0 :: rest)).
  { rewrite Forall_forall in *. intros s Hs. apply wf_rows_of_wf; [auto|].
    rewrite forallb_forall in Hc. apply Nat.eqb_eq. apply (Hc s Hs). }
  assert (Hrc : row_count (s0 :: rest) <> 0)
    by (apply row_count_pos; [discriminate | assumption]).
  assert (Hlenrows : length (concat (map rows_of (s0 :: rest))) = row_count (s0 :: rest)).
  { unfold row_count. generalize (s0 :: rest). intros l.
    induction l as [|a l IH]; simpl; [reflexivity|].
    now rewrite length_app, IH. }
  assert (Hc0 : length (columnNames s0) <> 0).
  { inversion Hwf as [|? ? [[_ [Hc0 _]] [Hl _]] _]; subst. now rewrite Hl. }
  remember (s0 :: rest) as sets eqn:Hsets. clear Hsets.
  unfold wf, wf_dense, merged. cbn [mat.RowsOf mat.Cols columnNames rowNames rowWeights scores].
  repeat split.
  - intros E. rewrite E in Hlenrows. simpl in Hlenrows. congruence.
  - assumption.
  - clear - Hrows. induction Hrows as [|s l [Hs _] _ IH]; simpl; [constructor|].
    apply Forall_app. split; assumption.
  - rewrite Hlenrows. clear - Hrows. unfold row_count.
    induction Hrows as [|s l [_ Hs] _ IH]; simpl; [reflexivity|].
    now rewrite length_app, IH, Hs.
  - rewrite Hlenrows. unfold enumerate.
    assert (Hw' : Forall (fun s => length (rowWeights s) = length (rows_of s)) sets).
    { rewrite Forall_forall in *. intros s Hs. apply (Hwf s Hs). }
    rewrite mergedWeights_length.
    clear - Hw'. unfold row_count.
    induction Hw' as [|s l Hs _ IH]; simpl; [reflexivity|].
    now rewrite IH, Hs.
Qed.
End MergeClaims.

Section MergePanics.
Context {F : Type} `{Float64 F}.

Lemma mergeDims_panic n weights columns st (si : nat * ScoreSet F) msg :
  mergeDims n weights columns st si = Panic msg -> later_panic msg.
Proof.
  unfold mergeDims.
  destruct (forM _ (rowWeights (snd si)) (fst st)) as [rw|msg'] eqn:E; simpl.
  - destruct (mat.Cols (scores (snd si)) =? length columns); simpl;
      [discriminate|]. intros [= <-]. right; now left.
  - intros [= <-]. left. symmetry.
    revert E. apply (forM_panic (fun m => m = ErrIndex)).
    intros acc rw msg0. unfold mergeWeight.
    destruct weights as [ws|]; [|discriminate].
    destruct (index ws (fst si)) eqn:Ei; simpl; [discriminate|].
    intros [= <-]. eapply index_panic, Ei.
Qed.

Lemma mergeRow_panic (s : ScoreSet F) st j msg :
  mergeRow s st j = Panic msg -> later_panic msg.
Proof.
  unfold mergeRow. destruct st as [[names m] rout].
  destruct (index (rowNames s) j) eqn:Ei; simpl.
  2:{ intros [= <-]. left. symmetry. eapply index_panic, Ei. }
  unfold mat.Row. destruct (nth_error (mat.RowsOf (scores s)) j); simpl.
  2:{ intros [= <-]. unfold later_panic. simpl. tauto. }
  unfold mat.SetRow.
  destruct (rout <? length (mat.RowsOf m)); simpl.
  2:{ intros [= <-]. unfold later_panic. simpl. tauto. }
  destruct (length l =? mat.Cols m); simpl; [discriminate|].
  intros [= <-]. unfold later_panic. simpl. tauto.
Qed.

Lemma Merge_later_panic (sets : list (ScoreSet F)) weights msg :
  2 <= length sets -> weights_ok sets weights ->
  Merge sets weights = Panic msg -> later_panic msg.
Proof.
  intros Hlen Hw. rewrite Merge_checks_pass by assumption.
  destruct (index sets 0) as [s0|e0] eqn:E0; simpl.
  2:{ intros [= <-]. left. symmetry. eapply index_panic, E0. }
  destruct (forM _ (enumerate sets) _) as [[rw rows]|e1] eqn:E1; simpl.
  2:{ intros [= <-]. revert E1. apply (forM_panic later_panic).
      intros st si m. apply mergeDims_panic. }
  unfold mat.NewDense.
  destruct ((rows =? 0) || (length (columnNames s0) =? 0)); simpl.
  { intros [= <-]. unfold later_panic. simpl. tauto. }
  destruct (forM mergeRows sets _) as [[[names m'] rout]|e2] eqn:E2; simpl;
    [discriminate|].
  intros [= <-]. revert E2. apply (forM_panic later_panic). intros st s m.
  unfold mergeRows. apply (forM_panic later_panic).
  intros st' j m0. apply mergeRow_panic.
Qed.

Lemma later_panic_not_config (msg : string) :
  later_panic msg -> ~ config_error msg.
Proof.
  unfold later_panic, config_error. simpl.
  intros [<-|[<-|[<-|[<-|[<-|[]]]]]] [E|[E|E]]; discriminate E.
Qed.

Lemma Merge_few (sets : list (ScoreSet F)) weights :
  length sets < 2 -> Merge sets weights = Panic ErrFewSets.
Proof.
  intros Hlen. unfold Merge.
  now replace (length sets <? 2) with true by (symmetry; apply Nat.ltb_lt; lia).
Qed.

Lemma Merge_weights_length (sets : list (ScoreSet F)) ws :
  2 <= length sets -> length ws <> length sets ->
  Merge sets (Some ws) = Panic ErrWeightsLength.
Proof.
  intros Hlen Hne. unfold Merge.
  replace (length sets <? 2) with false by (symmetry; apply Nat.ltb_ge; lia).
  replace (length sets =? length ws) with false
    by (symmetry; apply Nat.eqb_neq; congruence).
  reflexivity.
Qed.

Lemma Merge_weights_sum (sets : list (ScoreSet F)) ws :
  2 <= length sets -> length ws = length sets ->
  fne (total ws) (of_int 1) = true ->
  Merge sets (Some ws) = Panic ErrWeightsSum.
Proof.
  intros Hlen Hl Hs. unfold Merge.
  replace (length sets <? 2) with false by (symmetry; apply Nat.ltb_ge; lia).
  rewrite Hl, Nat.eqb_refl. simpl. now rewrite Hs.
Qed.

Lemma Merge_config_error_inv (sets : list (ScoreSet F)) weights msg :
  Merge sets weights = Panic msg -> config_error msg ->
  length sets < 2 \/
  exists ws, weights = Some ws /\
             (length ws <> length sets \/ fne (total ws) (of_int 1) = true).
Proof.
  intros HM Hcfg.
  destruct (Nat.lt_ge_cases (length sets) 2) as [Hlt|Hge]; [now left|].
  right.
  assert (Hnot : ~ weights_ok sets weights).
  { intros Hw. eapply later_panic_not_config; [|exact Hcfg].
    eapply Merge_later_panic; eassumption. }
  destruct weights as [ws|]; [|exfalso; apply Hnot; exact I].
  exists ws. split; [reflexivity|].
  destruct (Nat.eq_dec (length ws) (length sets)) as [El|Hl]; [|now left].
  right. destruct (fne (total ws) (of_int 1)) eqn:Es; [reflexivity|].
  exfalso. apply Hnot. now split.
Qed.
End MergePanics.

(** * Merge: the properties *)

Lemma forallb_false {A : Type} (f : A -> bool) (l : list A) :
  forallb f l = false -> exists a, In a l /\ f a = false.
Proof.
  induction l as [|a l IH]; simpl; [discriminate|].
  destruct (f a) eqn:E; simpl.
  - intros Hl. destruct (IH Hl) as [b [Hb Hf]]. exists b. auto.
  - intros _. exists a. auto.
Qed.

(** The row weights of a [Merge] that returns. *)
Lemma Merge_concatenates_weights {F : Type} `{Float64 F}
      (sets : list (ScoreSet F)) (weights : option (list F))
      (out : ScoreSet F) :
  Forall wf sets ->
  Merge sets weights = Ok out ->
  2 <= length sets /\
  match weights with
  | Some ws =>
      length ws = length sets /\
      rowWeights out =
      concat (map (fun p => map (fun rw => (rw * fst p)%f64) (rowWeights (snd p)))
                  (combine ws sets))
  | None =>
      rowWeights out =
      concat (map (fun s => map (fun rw => (rw / of_int (Z.of_nat (length sets)))%f64)
                                (rowWeights s)) sets)
  end.
Proof.
  intros Hwf HM.
  destruct (Merge_Ok_inv _ _ _ HM) as [Hlen [Hw _]].
  rewrite (Merge_Ok_merged _ _ _ Hwf HM).
  unfold merged; cbn [rowWeights].
  split; [assumption|].
  unfold enumerate. destruct weights as [ws|].
  - destruct Hw as [Hl _]. split; [assumption|].
    rewrite mergedWeights_explicit by (simpl; lia). reflexivity.
  - apply mergedWeights_nil.
Qed.

(** C3: a [Merge] that returns, on well-formed sets that all have the
    columns of the first, took two sets or more; its row labels and its
    matrix rows are those of the inputs, concatenated in input order and
    copied as they are; its columns are the inputs' columns; and each row
    weight is the input row weight times the weight of its set when a
    weight vector is given, or divided by the number of sets when the
    vector is nil. *)
Theorem Merge_concatenates_rows {F : Type} `{Float64 F}
        (sets : list (ScoreSet F)) (weights : option (list F))
        (out : ScoreSet F) :
  Forall wf sets ->
  (forall s, In s sets -> columnNames s = columnNames (hd emptySet sets)) ->
  Merge sets weights = Ok out ->
  2 <= length sets /\
  rowNames out = concat (map (@rowNames F) sets) /\
  rows_of out = concat (map rows_of sets) /\
  (forall s, In s sets -> columnNames out = columnNames s) /\
  match weights with
  | Some ws =>
      length ws = length sets /\
      rowWeights out =
      concat (map (fun p => map (fun rw => (rw * fst p)%f64) (rowWeights (snd p)))
                  (combine ws sets))
  | None =>
      rowWeights out =
      concat (map (fun s => map (fun rw => (rw / of_int (Z.of_nat (length sets)))%f64)
                                (rowWeights s)) sets)
  end.
Proof.
  intros Hwf Hcols HM.
  destruct (Merge_concatenates_weights sets weights out Hwf HM) as [Hlen Hrw].
  split; [assumption|].
  rewrite (Merge_Ok_merged _ _ _ Hwf HM) in Hrw |- *.
  repeat split; try reflexivity; try assumption.
  intros s Hs. symmetry. now apply Hcols.
Qed.

(** The two single-row tables of the merge scenario, under the explicit
    weights 0.7 and 0.3. *)
Lemma Merge_concatenates_rows_witness :
  2 <= length [B64.math; B64.reading] /\
  rowNames B64.math_reading = concat (map (@rowNames float) [B64.math; B64.reading]) /\
  rows_of B64.math_reading = concat (map rows_of [B64.math; B64.reading]) /\
  (forall s, In s [B64.math; B64.reading] -> columnNames B64.math_reading = columnNames s) /\
  length B64.seven_three = length [B64.math; B64.reading] /\
  rowWeights B64.math_reading =
  concat (map (fun p => map (fun rw => (rw * fst p)%f64) (rowWeights (snd p)))
              (combine B64.seven_three [B64.math; B64.reading])).
Proof.
  apply (Merge_concatenates_rows [B64.math; B64.reading]
                                 (Some B64.seven_three) B64.math_reading).
  - repeat constructor; simpl; discriminate.
  - intros s [<-|[<-|[]]]; reflexivity.
  - vm_compute. reflexivity.
Defined.

(** C2 (as stated, refuted): the same two cities in the two orders give
    two leaf tables whose columns are A, B and B, A; [Merge] returns a
    table with the columns A, B whose second row is the row of the B, A
    table, as it was. *)
Lemma Merge_accepts_reordered_columns :
  exists s1 s2 out : ScoreSet float,
    NewScoreSet "/Education/Math" B64.ab BIGGER byMath = Ok s1 /\
    NewScoreSet "/Education/Reading" B64.ba BIGGER byMath = Ok s2 /\
    columnNames s1 = ["A"; "B"]%string /\
    columnNames s2 = ["B"; "A"]%string /\
    Merge [s1; s2] None = Ok out /\
    columnNames out = ["A"; "B"]%string /\
    rows_of out = rows_of s1 ++ rows_of s2.
Proof.
  pose (s1 := leaf "/Education/Math" B64.ab BIGGER byMath).
  pose (s2 := leaf "/Education/Reading" B64.ba BIGGER byMath).
  exists s1, s2, (merged s1 [s1; s2] None).
  repeat (split; [vm_compute; reflexivity|]).
  vm_compute. reflexivity.
Qed.

(** C2 (amended): among well-formed sets that pass the opening checks,
    [Merge] panics on columns exactly when some set has another number
    of columns than the first; the names are never compared, so sets
    with as many columns as the first always merge, under the first
    set's column names. *)
Theorem Merge_compares_column_counts {F : Type} `{Float64 F}
        (sets : list (ScoreSet F)) (weights : option (list F)) :
  2 <= length sets ->
  weights_ok sets weights ->
  Forall wf sets ->
  (Merge sets weights = Panic ErrColumns <->
   exists s, In s sets /\
             length (columnNames s) <> length (columnNames (hd emptySet sets))) /\
  ((forall s, In s sets ->
              length (columnNames s) = length (columnNames (hd emptySet sets))) ->
   exists out, Merge sets weights = Ok out /\
               columnNames out = columnNames (hd emptySet sets)).
Proof.
  intros Hlen Hw Hwf.
  assert (Hcm : forall s, In s sets ->
            cols_match (columnNames (hd emptySet sets)) s = true <->
            length (columnNames s) = length (columnNames (hd emptySet sets))).
  { intros s Hs. unfold cols_match. rewrite Nat.eqb_eq.
    rewrite Forall_forall in Hwf. destruct (Hwf s Hs) as [_ [Hc _]].
    now rewrite Hc. }
  assert (Hsucc : forallb (cols_match (columnNames (hd emptySet sets))) sets = true ->
            Merge sets weights = Ok (merged (hd emptySet sets) sets weights)).
  { intros Hall. destruct sets as [|s0 rest]; [simpl in Hlen; lia|].
    apply Merge_ok; trivial.
    destruct rest; [simpl in Hlen; lia | discriminate]. }
  split; [split|].
  - intros HM.
    destruct (forallb (cols_match (columnNames (hd emptySet sets))) sets) eqn:E.
    + rewrite Hsucc in HM by reflexivity. discriminate.
    + destruct (forallb_false _ _ E) as [s [Hs Hn]].
      exists s. split; [assumption|]. intros Heq.
      apply (Hcm s Hs) in Heq. rewrite Heq in Hn. discriminate.
  - intros [s [Hs Hne]]. apply Merge_columns; trivial.
    destruct (forallb _ sets) eqn:E; [|reflexivity].
    rewrite forallb_forall in E. exfalso. apply Hne, (Hcm s Hs), E, Hs.
  - intros Hall. exists (merged (hd emptySet sets) sets weights).
    split; [|reflexivity].
    apply Hsucc. apply forallb_forall. intros s Hs. now apply Hcm, Hall.
Qed.

(** The leaf tables over A, B and over B, A: both have two columns. *)
Lemma Merge_compares_column_counts_witness :
  let sets := [leaf "/Education/Math" B64.ab BIGGER byMath;
               leaf "/Education/Reading" B64.ba BIGGER byMath] in
  (Merge sets None = Panic ErrColumns <->
   exists s, In s sets /\
             length (columnNames s) <> length (columnNames (hd emptySet sets))) /\
  ((forall s, In s sets ->
              length (columnNames s) = length (columnNames (hd emptySet sets))) ->
   exists out, Merge sets None = Ok out /\
               columnNames out = columnNames (hd emptySet sets)).
Proof.
  intros sets.
  apply (Merge_compares_column_counts sets None).
  - simpl. lia.
  - exact I.
  - repeat constructor; simpl; discriminate.
Defined.

(** C6: [Merge] opens with three checks and each panics before any table
    is built: fewer than two sets; a weight vector of another length than
    the sets; a weight vector whose total is not equal to 1.0, compared
    with [!=].  A panic with one of the three messages has no other
    cause.  In binary64 the weights 0.5 and 0.4 fail the third check. *)
Theorem Merge_fails_fast :
  (forall (F : Type) (ops : Float64 F) (sets : list (ScoreSet F))
          (weights : option (list F)),
      (length sets < 2 -> Merge sets weights = Panic ErrFewSets) /\
      (forall ws, 2 <= length sets -> weights = Some ws ->
                  length ws <> length sets ->
                  Merge sets weights = Panic ErrWeightsLength) /\
      (forall ws, 2 <= length sets -> weights = Some ws ->
                  length ws = length sets ->
                  fne (total ws) (of_int 1) = true ->
                  Merge sets weights = Panic ErrWeightsSum) /\
      (forall msg, Merge sets weights = Panic msg -> config_error msg ->
                   length sets < 2 \/
                   exists ws, weights = Some ws /\
                              (length ws <> length sets \/
                               fne (total ws) (of_int 1) = true))) /\
  Merge [B64.math; B64.reading] (Some B64.five_four) = Panic ErrWeightsSum.
Proof.
  split.
  - intros F ops sets weights. repeat split.
    + apply Merge_few.
    + intros ws Hlen -> Hne. now apply Merge_weights_length.
    + intros ws Hlen -> Hl Hs. now apply Merge_weights_sum.
    + apply Merge_config_error_inv.
  - vm_compute. reflexivity.
Qed.

(** * Exact arithmetic *)

(** The operations of the program at the instance [Exact]. *)
Ltac exact_ops :=
  cbv [of_int fadd fsub fmul fdiv fsqrt fne fgt Exact] in *.

Section ExactSums.
Import Sigma.
Local Open Scope R_scope.

Lemma fold_left_Rplus (l : list R) (a : R) :
  fold_left Rplus l a = a + Rsum l.
Proof.
  revert a; induction l as [|x l IH]; intros a; simpl; [lra|].
  rewrite IH. lra.
Qed.

Lemma Sum_Rsum (l : list R) : floats.Sum l = Rsum l.
Proof. unfold floats.Sum. exact_ops. rewrite fold_left_Rplus. lra. Qed.

Lemma total_Rsum (l : list R) : total l = Rsum l.
Proof. unfold total. exact_ops. rewrite fold_left_Rplus. lra. Qed.

Lemma Rsum_app (l1 l2 : list R) : Rsum (l1 ++ l2) = Rsum l1 + Rsum l2.
Proof. induction l1 as [|x l1 IH]; simpl; [lra | rewrite IH; lra]. Qed.

Lemma Rsum_map_scale {A : Type} (c : R) (g : A -> R) (l : list A) :
  Rsum (map (fun a => c * g a) l) = c * Rsum (map g l).
Proof. induction l as [|x l IH]; simpl; [lra | rewrite IH; lra]. Qed.

Lemma Rsum_map_minus (m : R) (l : list R) :
  Rsum (map (fun v => v - m) l) = Rsum l - INR (length l) * m.
Proof.
  induction l as [|x l IH]; [simpl; lra|].
  change (length (x :: l)) with (S (length l)). rewrite S_INR.
  simpl. rewrite IH. lra.
Qed.

Lemma of_int_nat (n : nat) : of_int (Z.of_nat n) = INR n.
Proof. exact_ops. symmetry. apply INR_IZR_INZ. Qed.

Lemma meanOf_sampleMean (x : list R) : meanOf x = sampleMean x.
Proof. unfold meanOf, sampleMean. rewrite Sum_Rsum, of_int_nat. reflexivity. Qed.

Lemma Rsum_deviations (x : list R) :
  x <> [] -> Rsum (map (fun v => v - sampleMean x) x) = 0.
Proof.
  intros Hne. rewrite Rsum_map_minus. unfold sampleMean.
  assert (INR (length x) <> 0).
  { apply not_0_INR. destruct x; simpl; congruence. }
  field. assumption.
Qed.

Lemma varStep_fold (m : R) (x : list R) (a b : R) :
  fold_left (stat.varStep m) x (a, b) =
  (a + Rsum (map (fun v => (v - m) * (v - m)) x),
   b + Rsum (map (fun v => v - m) x)).
Proof.
  revert a b; induction x as [|v x IH]; intros a b; simpl.
  - f_equal; lra.
  - unfold stat.varStep at 2. simpl fst. simpl snd. exact_ops.
    rewrite IH. f_equal; lra.
Qed.

Lemma varianceOf_sample (x : list R) :
  x <> [] ->
  varianceOf x = sumSquares x / (INR (length x) - 1).
Proof.
  intros Hne. unfold varianceOf. rewrite meanOf_sampleMean.
  change (of_int 0) with 0. rewrite varStep_fold. simpl fst. simpl snd.
  rewrite Rsum_deviations by assumption.
  rewrite of_int_nat.
  replace (of_int (Z.of_nat (length x) - 1)) with (INR (length x) - 1).
  2:{ exact_ops. rewrite minus_IZR, <- INR_IZR_INZ. reflexivity. }
  exact_ops. unfold sumSquares.
  replace (0 + 0) with 0 by lra.
  unfold Rdiv at 2. rewrite !Rmult_0_l, Rminus_0_r, Rplus_0_l. reflexivity.
Qed.

Lemma stdOf_sample (x : list R) :
  x <> [] -> stdOf x = sampleStdDev x.
Proof.
  intros Hne. unfold stdOf, sampleStdDev.
  rewrite varianceOf_sample by assumption. reflexivity.
Qed.
End ExactSums.

(** * The leaf row in exact arithmetic *)

Section LeafExact.
Import Sigma.
Local Open Scope R_scope.

Lemma zrow_exact (better : ScoreGoal) (x : list R) :
  x <> [] ->
  zrow better x =
  map (fun v => direction better * ((v - sampleMean x) / sampleStdDev x)) x.
Proof.
  intros Hne. unfold zrow.
  rewrite meanOf_sampleMean, stdOf_sample by assumption.
  apply map_ext. intros v. unfold zscore, direction.
  destruct better; exact_ops; lra.
Qed.

Lemma Rsum_squares_nonneg {A : Type} (g : A -> R) (l : list A) :
  0 <= Rsum (map (fun a => g a * g a) l).
Proof.
  induction l as [|a l IH]; simpl; [lra|].
  pose proof (Rle_0_sqr (g a)) as Hs. unfold Rsqr in Hs. lra.
Qed.

Lemma Rsum_squares_pos {A : Type} (g : A -> R) (l : list A) (a : A) :
  In a l -> g a <> 0 -> 0 < Rsum (map (fun a => g a * g a) l).
Proof.
  induction l as [|b l IH]; simpl; [tauto|].
  intros [->|Hin] Hg.
  - pose proof (Rsum_squares_nonneg g l).
    pose proof (Rsqr_pos_lt (g a) Hg) as Hs. unfold Rsqr in Hs. lra.
  - pose proof (IH Hin Hg).
    pose proof (Rle_0_sqr (g b)) as Hs. unfold Rsqr in Hs. lra.
Qed.

Lemma two_distinct_length {A : Type} (a b : A) (l : list A) :
  In a l -> In b l -> a <> b -> (2 <= length l)%nat.
Proof.
  destruct l as [|x [|y l]]; simpl; try tauto; try lia.
  intros [<-|[]] [<-|[]] Hne. congruence.
Qed.

(** Two distinct values cannot both be the mean. *)
Lemma sumSquares_pos (x : list R) (a b : R) :
  In a x -> In b x -> a <> b -> 0 < sumSquares x.
Proof.
  intros Ha Hb Hne. unfold sumSquares.
  destruct (Req_dec_T a (sampleMean x)) as [Ea|Na].
  - apply (Rsum_squares_pos (fun v => v - sampleMean x) x b Hb). lra.
  - apply (Rsum_squares_pos (fun v => v - sampleMean x) x a Ha). lra.
Qed.

Lemma sampleStdDev_pos (x : list R) (a b : R) :
  In a x -> In b x -> a <> b ->
  0 < sampleStdDev x /\
  sampleStdDev x * sampleStdDev x = sumSquares x / (INR (length x) - 1) /\
  0 < INR (length x) - 1.
Proof.
  intros Ha Hb Hne.
  pose proof (sumSquares_pos x a b Ha Hb Hne) as Hss.
  pose proof (two_distinct_length a b x Ha Hb Hne) as Hlen.
  assert (Hn : 0 < INR (length x) - 1).
  { apply le_INR in Hlen. simpl in Hlen. lra. }
  assert (HV : 0 < sumSquares x / (INR (length x) - 1))
    by (apply Rdiv_lt_0_compat; assumption).
  unfold sampleStdDev. repeat split.
  - now apply sqrt_lt_R0.
  - apply sqrt_sqrt. lra.
  - assumption.
Qed.

(** The stored row has sample mean 0 and sample standard deviation 1. *)
Lemma zrow_standardised (better : ScoreGoal) (x : list R) (a b : R) :
  In a x -> In b x -> a <> b ->
  stat.MeanStdDev (zrow better x) None = Ok (0, 1).
Proof.
  intros Ha Hb Hne.
  assert (Hx : x <> []) by (destruct x; [destruct Ha | discriminate]).
  destruct (sampleStdDev_pos x a b Ha Hb Hne) as [Hs [Hsq Hn]].
  pose proof (sumSquares_pos x a b Ha Hb Hne) as Hss.
  set (sd := sampleStdDev x) in *. set (mu := sampleMean x) in *.
  assert (Hz : zrow better x <> [])
    by (unfold zrow; destruct x; [congruence | discriminate]).
  assert (Hlen : length (zrow better x) = length x)
    by (unfold zrow; apply length_map).
  assert (Hdir : direction better * direction better = 1)
    by (destruct better; simpl; lra).
  rewrite MeanStdDev_nil_weights.
  assert (Hmean : sampleMean (zrow better x) = 0).
  { unfold sampleMean at 1. rewrite zrow_exact by assumption.
    fold mu sd.
    rewrite (map_ext _ (fun v => (direction better / sd) * (v - mu)))
      by (intros v; field; lra).
    rewrite Rsum_map_scale. unfold mu. rewrite Rsum_deviations by assumption.
    unfold Rdiv. now rewrite Rmult_0_r, Rmult_0_l. }
  rewrite meanOf_sampleMean, stdOf_sample by assumption.
  rewrite Hmean. f_equal. f_equal.
  unfold sampleStdDev, sumSquares. rewrite Hmean, Hlen.
  rewrite zrow_exact by assumption. fold mu sd.
  rewrite map_map.
  rewrite (map_ext _ (fun v => (1 / (sd * sd)) * ((v - mu) * (v - mu)))).
  2:{ intros v. field_simplify_eq; [|lra].
      replace (direction better ^ 2) with (direction better * direction better)
        by ring.
      rewrite Hdir. ring. }
  rewrite Rsum_map_scale.
  change (Rsum (map (fun v => (v - mu) * (v - mu)) x)) with (sumSquares x).
  rewrite Hsq.
  replace (1 / (sumSquares x / (INR (length x) - 1)) * sumSquares x /
           (INR (length x) - 1)) with 1 by (field; lra).
  apply sqrt_1.
Qed.
End LeafExact.

(** * The leaf row: the properties *)

(** C1 (as stated, refuted): for the raw values 10, 20, 30 and the goal
    [BIGGER] the stored row is -1, 0, 1 in binary64, bit for bit.  Its
    first entry is more than 0.2 away from -1.2247, and its population
    standard deviation is below 0.9. *)
Lemma NewScoreSet_abc_is_not_population_normalised :
  NewScoreSet "/Education/Math" B64.abc BIGGER byMath = Ok B64.math /\
  rows_of B64.math = [[-1; 0; 1]%float] /\
  PrimFloat.ltb 0.2 (PrimFloat.abs (-1 - -1.2247)) = true /\
  PrimFloat.ltb (B64.popStdDev [-1; 0; 1]%float) 0.9 = true.
Proof. repeat (split; [vm_compute; reflexivity|]). vm_compute. reflexivity. Qed.

(** C1 (amended): in exact arithmetic, for a list of alternatives with
    two distinct extractor values, [NewScoreSet] returns a table whose one
    row holds, for each raw value [v], [(v - mean) / sd] (negated for
    [SMALLER]), where [mean] is the mean and [sd] the sample standard
    deviation (the divisor is [n - 1]) of the raw values; the row has
    mean 0 and sample standard deviation 1.  In binary64, the raw values
    10, 20, 30 with the goal [BIGGER] give the row -1, 0, 1. *)
Theorem NewScoreSet_sample_zscores :
  (forall (axis : string) (cities : list (City R)) (better : ScoreGoal)
          (f : ScoreFunc R),
      (exists c1 c2, In c1 cities /\ In c2 cities /\ f c1 <> f c2) ->
      exists s row,
        NewScoreSet axis cities better f = Ok s /\
        rows_of s = [row] /\
        row = map (fun v => Sigma.direction better *
                            ((v - Sigma.sampleMean (map f cities))
                               / Sigma.sampleStdDev (map f cities)))%R
                  (map f cities) /\
        stat.MeanStdDev row None = Ok (0%R, 1%R)) /\
  NewScoreSet "/Education/Math" B64.abc BIGGER byMath
  = Ok {| columnNames := ["A"; "B"; "C"]%string;
          rowNames := ["/Education/Math"%string];
          rowWeights := [1%float];
          scores := mat.mkDense 3 [[-1; 0; 1]%float] |}.
Proof.
  split; [|vm_compute; reflexivity].
  intros axis cities better f [c1 [c2 [H1 [H2 Hne]]]].
  assert (Hc : cities <> []) by (destruct cities; [destruct H1 | discriminate]).
  exists (leaf axis cities better f), (zrow better (map f cities)).
  split; [now apply NewScoreSet_leaf|].
  split; [reflexivity|].
  split.
  - apply zrow_exact. destruct cities; [congruence | discriminate].
  - apply (zrow_standardised better (map f cities) (f c1) (f c2));
      [now apply in_map | now apply in_map | assumption].
Qed.

(** The raw values 10, 20, 30 in exact arithmetic. *)
Lemma NewScoreSet_sample_zscores_witness :
  exists s row,
    NewScoreSet "/Education/Math" Sigma.abc BIGGER byMath = Ok s /\
    rows_of s = [row] /\
    row = map (fun v => Sigma.direction BIGGER *
                        ((v - Sigma.sampleMean (map byMath Sigma.abc))
                           / Sigma.sampleStdDev (map byMath Sigma.abc)))%R
              (map byMath Sigma.abc) /\
    stat.MeanStdDev row None = Ok (0%R, 1%R).
Proof.
  apply (proj1 NewScoreSet_sample_zscores
               "/Education/Math"%string Sigma.abc BIGGER byMath).
  exists (plainCity "A" 10%R), (plainCity "B" 20%R).
  split; [simpl; auto|]. split; [simpl; auto|].
  unfold byMath; simpl. lra.
Defined.

(** * Binary64 arithmetic *)

Section Binary64Facts.
Local Open Scope float_scope.

Lemma is_nan_SF (x : float) : is_nan x = true <-> Prim2SF x = S754_nan.
Proof.
  unfold Prim2SF. destruct (is_nan x); [tauto|].
  split; [discriminate|].
  destruct (is_zero x); [discriminate|].
  destruct (is_infinity x); [discriminate|].
  destruct (Z.frexp x) as [r e].
  destruct (shr_fexp _ _ _ _ _) as [sh e'].
  destruct (shr_m sh); discriminate.
Qed.

Lemma Prim2SF_infinity : Prim2SF infinity = S754_infinity false.
Proof. reflexivity. Qed.

(** [is_finite] is false exactly on the infinities and NaN. *)
Lemma is_finite_SF (x : float) :
  is_finite x = false <-> SF_nonfinite (Prim2SF x).
Proof.
  unfold is_finite. rewrite negb_false_iff, orb_true_iff.
  split.
  - intros [Hn|Hi].
    + apply is_nan_SF in Hn. now rewrite Hn.
    + unfold is_infinity in Hi.
      rewrite eqb_spec, abs_spec, Prim2SF_infinity in Hi.
      destruct (Prim2SF x) as [s|s| |s m e]; simpl in *; trivial; discriminate.
  - intros Hs. destruct (is_nan x) eqn:En; [now left|]. right.
    unfold is_infinity. rewrite eqb_spec, abs_spec, Prim2SF_infinity.
    destruct (Prim2SF x) as [s|s| |s m e] eqn:E; simpl in *; try tauto.
    apply is_nan_SF in E. congruence.
Qed.

Lemma is_zero_SF (x : float) : is_zero x = true -> SF_zero (Prim2SF x).
Proof.
  unfold is_zero. rewrite eqb_spec.
  change (Prim2SF zero) with (S754_zero false).
  destruct (Prim2SF x) as [s|s| |s m e]; simpl; trivial; try discriminate.
  - destruct s; discriminate.
  - destruct s; discriminate.
Qed.

(** Case analysis on the specifications of two operands. *)
Ltac sf_cases a b :=
  destruct (Prim2SF a) as [[|]|[|]| |[|] ? ?];
  destruct (Prim2SF b) as [[|]|[|]| |[|] ? ?];
  simpl; tauto.

Lemma add_nonfinite_l (a b : float) :
  SF_nonfinite (Prim2SF a) -> SF_nonfinite (Prim2SF (a + b)).
Proof. rewrite add_spec. unfold SF64add, SFadd. sf_cases a b. Qed.

Lemma add_nonfinite_r (a b : float) :
  SF_nonfinite (Prim2SF b) -> SF_nonfinite (Prim2SF (a + b)).
Proof. rewrite add_spec. unfold SF64add, SFadd. sf_cases a b. Qed.

Lemma sub_nonfinite_r (a b : float) :
  SF_nonfinite (Prim2SF b) -> SF_nonfinite (Prim2SF (a - b)).
Proof. rewrite sub_spec. unfold SF64sub, SFsub. sf_cases a b. Qed.

Lemma div_nonfinite_l (a b : float) :
  SF_nonfinite (Prim2SF a) -> SF_nonfinite (Prim2SF (a / b)).
Proof. rewrite div_spec. unfold SF64div, SFdiv. sf_cases a b. Qed.

Lemma mul_nonfinite_l (a b : float) :
  SF_nonfinite (Prim2SF a) -> SF_nonfinite (Prim2SF (a * b)).
Proof. rewrite mul_spec. unfold SF64mul, SFmul. sf_cases a b. Qed.

(** Whatever is divided by a zero is infinite or NaN. *)
Lemma div_zero_nonfinite (a b : float) :
  SF_zero (Prim2SF b) -> SF_nonfinite (Prim2SF (a / b)).
Proof. rewrite div_spec. unfold SF64div, SFdiv. sf_cases a b. Qed.

(** A sum that meets an infinity or a NaN never becomes finite again. *)
Lemma fold_add_nonfinite (l : list float) : forall a : float,
  SF_nonfinite (Prim2SF a) \/ (exists v, In v l /\ SF_nonfinite (Prim2SF v)) ->
  SF_nonfinite (Prim2SF (fold_left PrimFloat.add l a)).
Proof.
  induction l as [|x l IH]; intros a [Ha|[v [Hv Hn]]]; simpl.
  - assumption.
  - destruct Hv.
  - apply IH. left. now apply add_nonfinite_l.
  - apply IH. destruct Hv as [->|Hv].
    + left. now apply add_nonfinite_r.
    + right. now exists v.
Qed.

(** *** Multiplying by -1.0 is exact *)

Lemma Prim2SF_neg_one :
  Prim2SF (of_int (-1)) = S754_finite true 4503599627370496 (-52).
Proof. vm_compute. reflexivity. Qed.

Lemma shr_52 (m : positive) :
  SpecFloat.iter_pos shr_1 52 (Build_shr_record (Zpos (4503599627370496 * m)) false false)
  = Build_shr_record (Zpos m) false false.
Proof. reflexivity. Qed.

Lemma digits2_shift_52 (m : positive) :
  Zpos (digits2_pos (4503599627370496 * m)) = (Zpos (digits2_pos m) + 52)%Z.
Proof. cbn [Pos.mul digits2_pos]. lia. Qed.

(** The product of a mantissa with 2^52, at an exponent lowered by 52,
    rounds back to the mantissa it came from. *)
Lemma round_times_two_52 (s : bool) (m : positive) (e : Z) :
  SpecFloat.bounded prec emax m e = true ->
  binary_round_aux prec emax s (Zpos (m * 4503599627370496)) (e + -52) loc_Exact
  = S754_finite s m e.
Proof.
  intros Hb. unfold SpecFloat.bounded in Hb. apply andb_true_iff in Hb.
  destruct Hb as [Hc He]. unfold canonical_mantissa in Hc.
  apply Z.eqb_eq in Hc.
  rewrite Pos.mul_comm.
  unfold binary_round_aux, shr_fexp. unfold Zdigits2 at 1.
  rewrite digits2_shift_52.
  replace (Z.pos (digits2_pos m) + 52 + (e + -52))%Z
    with (Z.pos (digits2_pos m) + e)%Z by lia.
  rewrite Hc.
  replace (e - (e + -52))%Z with 52%Z by lia.
  unfold shr at 1. cbn [shr_record_of_loc]. rewrite shr_52.
  cbn [shr_m loc_of_shr_record round_nearest_even shr_r shr_s].
  unfold Zdigits2.
  replace (e + -52 + 52)%Z with e by lia.
  rewrite Hc. rewrite Z.sub_diag. cbn [shr shr_record_of_loc shr_m].
  rewrite He. reflexivity.
Qed.

Lemma mul_neg_one (x : float) : x * of_int (-1) = - x.
Proof.
  apply Prim2SF_inj. rewrite mul_spec, opp_spec, Prim2SF_neg_one.
  pose proof (Prim2SF_valid x) as Hv.
  destruct (Prim2SF x) as [s|s| |s m e]; try (destruct s; reflexivity).
  - reflexivity.
  - unfold SF64mul, SFmul. simpl in Hv. rewrite round_times_two_52 by assumption.
    destruct s; reflexivity.
Qed.
End Binary64Facts.

(** * The leaf row in binary64 *)

(** The operations of the program at the instance [Binary64]. *)
Ltac binary64_ops :=
  cbv [fadd fsub fmul fdiv fsqrt fne fgt Binary64] in *.

Section LeafBinary64.
Local Open Scope float_scope.

Lemma zscore_nonfinite_mean (better : ScoreGoal) (mu sigma v : float) :
  SF_nonfinite (Prim2SF mu) -> SF_nonfinite (Prim2SF (zscore better mu sigma v)).
Proof.
  intros Hmu. unfold zscore. binary64_ops.
  assert (Hval : SF_nonfinite (Prim2SF ((v - mu) / sigma)))
    by now apply div_nonfinite_l, sub_nonfinite_r.
  destruct better; [assumption | now apply mul_nonfinite_l].
Qed.

Lemma zscore_zero_sigma (better : ScoreGoal) (mu sigma v : float) :
  SF_zero (Prim2SF sigma) -> SF_nonfinite (Prim2SF (zscore better mu sigma v)).
Proof.
  intros Hs. unfold zscore. binary64_ops.
  assert (Hval : SF_nonfinite (Prim2SF ((v - mu) / sigma)))
    by now apply div_zero_nonfinite.
  destruct better; [assumption | now apply mul_nonfinite_l].
Qed.

Lemma meanOf_nonfinite (x : list float) (v : float) :
  In v x -> is_finite v = false -> SF_nonfinite (Prim2SF (meanOf x)).
Proof.
  intros Hv Hn. unfold meanOf, floats.Sum. binary64_ops.
  apply div_nonfinite_l, fold_add_nonfinite. right.
  exists v. split; [assumption | now apply is_finite_SF].
Qed.

Lemma zrow_SMALLER (x : list float) :
  zrow SMALLER x = map PrimFloat.opp (zrow BIGGER x).
Proof.
  unfold zrow. rewrite map_map. apply map_ext. intros v.
  unfold zscore. binary64_ops. apply mul_neg_one.
Qed.
End LeafBinary64.

(** C7 (as stated, refuted): two cities that both score 5.  [NewScoreSet]
    returns a table whose row is NaN, NaN: not the all-zero row, and not
    finite. *)
Lemma NewScoreSet_flat_axis_is_NaN :
  map byMath B64.flat = [5; 5]%float /\
  NewScoreSet "/Education/Math" B64.flat BIGGER byMath
  = Ok {| columnNames := ["A"; "B"]%string;
          rowNames := ["/Education/Math"%string];
          rowWeights := [1%float];
          scores := mat.mkDense 2 [[nan; nan]] |} /\
  is_finite nan = false.
Proof. repeat (split; [vm_compute; reflexivity|]). reflexivity. Qed.

(** C7 (amended): [NewScoreSet] has no case for a standard deviation of
    zero.  Whenever [stat.MeanStdDev] returns a zero [sigma] for the raw
    values (as it does for 5, 5), the table is still returned and every
    entry of its row, being a quotient by zero, is infinite or NaN. *)
Theorem NewScoreSet_divides_by_zero_sigma (axis : string)
        (cities : list (City float)) (better : ScoreGoal) (f : ScoreFunc float)
        (mu sigma : float) :
  cities <> [] ->
  stat.MeanStdDev (map f cities) None = Ok (mu, sigma) ->
  is_zero sigma = true ->
  exists s row,
    NewScoreSet axis cities better f = Ok s /\
    rows_of s = [row] /\
    length row = length cities /\
    Forall (fun z => is_finite z = false) row.
Proof.
  intros Hne HM Hz. rewrite MeanStdDev_nil_weights in HM.
  assert (Hsigma : stdOf (map f cities) = sigma) by congruence.
  exists (leaf axis cities better f), (zrow better (map f cities)).
  split; [now apply NewScoreSet_leaf|]. split; [reflexivity|].
  split; [unfold zrow; now rewrite !length_map|].
  unfold zrow. rewrite Hsigma. apply Forall_forall. intros z Hin.
  apply in_map_iff in Hin. destruct Hin as [v [<- _]].
  apply is_finite_SF, zscore_zero_sigma, is_zero_SF, Hz.
Qed.

(** The two cities that both score 5: the mean is 5 and [sigma] is 0. *)
Lemma NewScoreSet_divides_by_zero_sigma_witness :
  exists s row,
    NewScoreSet "/Education/Math" B64.flat BIGGER byMath = Ok s /\
    rows_of s = [row] /\
    length row = length B64.flat /\
    Forall (fun z => is_finite z = false) row.
Proof.
  apply (NewScoreSet_divides_by_zero_sigma "/Education/Math" B64.flat BIGGER
                                           byMath 5%float 0%float).
  - discriminate.
  - vm_compute. reflexivity.
  - vm_compute. reflexivity.
Defined.

(** C8 (as stated, refuted): a city whose score is infinite.
    [NewScoreSet] does not panic; it returns a table whose row is NaN,
    NaN. *)
Lemma NewScoreSet_accepts_infinite_score :
  map byMath B64.gap = [5; infinity]%float /\
  NewScoreSet "/Education/Math" B64.gap BIGGER byMath
  = Ok {| columnNames := ["A"; "B"]%string;
          rowNames := ["/Education/Math"%string];
          rowWeights := [1%float];
          scores := mat.mkDense 2 [[nan; nan]] |}.
Proof. split; vm_compute; reflexivity. Qed.

(** C8 (amended): [NewScoreSet] never inspects what the extractor
    returns.  When some alternative's raw value is infinite or NaN the
    table is still returned, and every entry of its row is infinite or
    NaN: the mean is, and every entry is computed from the mean. *)
Theorem NewScoreSet_spreads_nonfinite (axis : string)
        (cities : list (City float)) (better : ScoreGoal) (f : ScoreFunc float) :
  (exists c, In c cities /\ is_finite (f c) = false) ->
  exists s row,
    NewScoreSet axis cities better f = Ok s /\
    rows_of s = [row] /\
    length row = length cities /\
    Forall (fun z => is_finite z = false) row.
Proof.
  intros [c [Hc Hn]].
  assert (Hne : cities <> []) by (destruct cities; [destruct Hc | discriminate]).
  exists (leaf axis cities better f), (zrow better (map f cities)).
  split; [now apply NewScoreSet_leaf|]. split; [reflexivity|].
  split; [unfold zrow; now rewrite !length_map|].
  unfold zrow. apply Forall_forall. intros z Hin.
  apply in_map_iff in Hin. destruct Hin as [v [<- _]].
  apply is_finite_SF, zscore_nonfinite_mean.
  apply (meanOf_nonfinite (map f cities) (f c)); [now apply in_map | assumption].
Qed.

(** The city whose score is infinite. *)
Lemma NewScoreSet_spreads_nonfinite_witness :
  exists s row,
    NewScoreSet "/Education/Math" B64.gap SMALLER byMath = Ok s /\
    rows_of s = [row] /\
    length row = length B64.gap /\
    Forall (fun z => is_finite z = false) row.
Proof.
  apply (NewScoreSet_spreads_nonfinite "/Education/Math" B64.gap SMALLER byMath).
  exists (plainCity "B" infinity). split.
  - simpl. auto.
  - vm_compute. reflexivity.
Defined.

(** C9: in binary64, for every axis label, non-empty list of alternatives
    and extractor, the tables built with [BIGGER] and with [SMALLER] have
    one row each, and every entry of the [SMALLER] row is the negation of
    the entry of the [BIGGER] row at the same place. *)
Theorem NewScoreSet_SMALLER_negates (axis : string)
        (cities : list (City float)) (f : ScoreFunc float) :
  cities <> [] ->
  exists sB sS rowB rowS,
    NewScoreSet axis cities BIGGER f = Ok sB /\
    NewScoreSet axis cities SMALLER f = Ok sS /\
    rows_of sB = [rowB] /\
    rows_of sS = [rowS] /\
    rowS = map PrimFloat.opp rowB.
Proof.
  intros Hne.
  exists (leaf axis cities BIGGER f), (leaf axis cities SMALLER f),
         (zrow BIGGER (map f cities)), (zrow SMALLER (map f cities)).
  repeat (split; [now apply NewScoreSet_leaf || reflexivity|]).
  apply zrow_SMALLER.
Qed.

(** The raw values 10, 20, 30. *)
Lemma NewScoreSet_SMALLER_negates_witness :
  exists sB sS rowB rowS,
    NewScoreSet "/Education/Math" B64.abc BIGGER byMath = Ok sB /\
    NewScoreSet "/Education/Math" B64.abc SMALLER byMath = Ok sS /\
    rows_of sB = [rowB] /\
    rows_of sS = [rowS] /\
    rowS = map PrimFloat.opp rowB.
Proof.
  apply (NewScoreSet_SMALLER_negates "/Education/Math" B64.abc byMath).
  discriminate.
Defined.

(** The same in exact arithmetic. *)
Lemma zrow_SMALLER_exact (x : list R) :
  zrow SMALLER x = map Ropp (zrow BIGGER x).
Proof.
  unfold zrow. rewrite map_map. apply map_ext. intros v.
  unfold zscore. exact_ops. lra.
Qed.

(** * Merge: the sum of the row weights *)

Section MergeSum.
Import Sigma.
Local Open Scope R_scope.

Lemma Rsum_concat (ls : list (list R)) : Rsum (concat ls) = Rsum (map Rsum ls).
Proof.
  induction ls as [|l ls IH]; simpl; [reflexivity|].
  now rewrite Rsum_app, IH.
Qed.

Lemma Rsum_map_ext {A : Type} (g h : A -> R) (l : list A) :
  (forall a, In a l -> g a = h a) -> Rsum (map g l) = Rsum (map h l).
Proof.
  induction l as [|a l IH]; intros Hgh; simpl; [reflexivity|].
  rewrite Hgh by now left. rewrite IH; [reflexivity|].
  intros b Hb. apply Hgh. now right.
Qed.

(** The weights of the rows of one set, scaled by [w], sum to [w] times
    their sum. *)
Lemma Rsum_scaled_by (w : R) (rws : list R) :
  Rsum (map (fun rw => fmul rw w) rws) = w * Rsum rws.
Proof.
  exact_ops. induction rws as [|x l IH]; simpl; [lra | rewrite IH; lra].
Qed.

Lemma Rsum_divided_by (d : R) (rws : list R) :
  Rsum (map (fun rw => fdiv rw d) rws) = Rsum rws / d.
Proof.
  exact_ops. induction rws as [|x l IH]; simpl; [lra | rewrite IH; lra].
Qed.

Lemma Rsum_shares (ws : list R) (sets : list (ScoreSet R)) :
  length ws = length sets ->
  (forall s, In s sets -> Rsum (rowWeights s) = 1) ->
  Rsum (map (fun p => fst p * Rsum (rowWeights (snd p))) (combine ws sets))
  = Rsum ws.
Proof.
  revert sets; induction ws as [|w ws IH]; intros [|s sets] Hl Hone;
    simpl in *; try reflexivity; try lia.
  rewrite IH by (auto; lia). rewrite (Hone s) by now left. lra.
Qed.

Lemma Rsum_ones (sets : list (ScoreSet R)) :
  (forall s, In s sets -> Rsum (rowWeights s) = 1) ->
  Rsum (map (fun s => Rsum (rowWeights s)) sets) = INR (length sets).
Proof.
  induction sets as [|s sets IH]; intros Hone; [simpl; lra|].
  change (length (s :: sets)) with (S (length sets)). rewrite S_INR.
  simpl. rewrite IH by (intros; apply Hone; now right).
  rewrite (Hone s) by now left. lra.
Qed.

Lemma weights_ok_total (sets : list (ScoreSet R)) (ws : list R) :
  weights_ok sets (Some ws) -> total ws = 1.
Proof.
  intros [_ Hs]. revert Hs. exact_ops.
  destruct (Req_dec_T (total ws) 1); [trivial | discriminate].
Qed.
End MergeSum.




(** * Print *)

Lemma In_enumerate {A : Type} (l : list A) (i : nat) (a : A) :
  In (i, a) (enumerate l) -> nth_error l i = Some a.
Proof.
  unfold enumerate.
  assert (G : forall k, In (i, a) (combine (seq k (length l)) l) ->
                        k <= i /\ nth_error l (i - k) = Some a).
  { induction l as [|b l IH]; intros k; simpl; [tauto|].
    intros [[= <- <-]|Hin].
    - rewrite Nat.sub_diag. auto.
    - destruct (IH (S k) Hin) as [Hk Hn]. split; [lia|].
      replace (i - k) with (S (i - S k)) by lia. exact Hn. }
  intros Hin. destruct (G 0 Hin) as [_ Hn]. now rewrite Nat.sub_0_r in Hn.
Qed.

Section PrintFacts.
Context {F : Type} `{Float64 F}.
Variable CDF : F -> F.

Lemma MeanStdDev_weighted (x w : list F) :
  w <> [] -> length x = length w ->
  exists sd, stat.MeanStdDev x (sliceArg w) = Ok (wmeanOf w x, sd).
Proof.
  intros Hw Hl. destruct w as [|w0 w]; [congruence|].
  unfold sliceArg, stat.MeanStdDev, stat.MeanVariance, stat.Mean.
  rewrite Hl, Nat.eqb_refl, bind_Ok.
  destruct (fold_left (stat.wvarStep _) _ _) as [[ss compensation] sumWeights].
  rewrite bind_Ok. eexists. reflexivity.
Qed.



Lemma scoreColumn_loop (set : ScoreSet F) :
  wf set ->
  forM (scoreColumn CDF set) (enumerate (columnNames set)) [] =
  Ok (scoredColumns CDF set).
Proof.
  intros [[Hne [_ Hrows]] [Hc [Hn Hw]]].
  unfold scoredColumns. rewrite <- (app_nil_l (map _ _)).
  apply forM_append. intros acc [j name] Hin. unfold scoreColumn.
  simpl fst. simpl snd. apply In_enumerate in Hin.
  assert (Hj : j < length (columnNames set)) by (apply nth_error_Some; congruence).
  unfold mat.Col.
  replace (j <? mat.Cols (scores set)) with true
    by (symmetry; apply Nat.ltb_lt; lia).
  rewrite bind_Ok. fold (rows_of set). fold (column j set).
  destruct (MeanStdDev_weighted (column j set) (rowWeights set)) as [sd Hsd].
  - intros E. rewrite E in Hw. simpl in Hw.
    destruct (mat.RowsOf (scores set)); [congruence | discriminate].
  - unfold column. rewrite length_map. unfold rows_of. now rewrite Hw.
  - rewrite Hsd, bind_Ok. reflexivity.
Qed.

End PrintFacts.

(** ** Sorting *)

Section SortFacts.
Context {A : Type}.
Variable less : A -> A -> bool.

Lemma sink_perm (x : A) (rp : list A) : Permutation (x :: rp) (sort.sink less x rp).
Proof.
  induction rp as [|y rp IH]; simpl; [reflexivity|].
  destruct (less x y); [|reflexivity].
  rewrite perm_swap. now constructor.
Qed.

Lemma Slice_perm (l : list A) : Permutation l (sort.Slice less l).
Proof.
  unfold sort.Slice. rewrite <- Permutation_rev.
  assert (G : forall rp, Permutation (rp ++ l)
                (fold_left (fun rp x => sort.sink less x rp) l rp)).
  { induction l as [|x l IH]; intros rp; simpl.
    - now rewrite app_nil_r.
    - rewrite <- IH. rewrite <- sink_perm. simpl.
      symmetry. apply Permutation_middle. }
  apply (G []).
Qed.
End SortFacts.

(** ** Sorting by a real key *)

Section SortByKey.
Context {A : Type}.
Variable key : A -> R.
Local Open Scope R_scope.

Lemma sorted_snoc (P : A -> A -> Prop) (l : list A) (x : A) :
  StronglySorted P l -> Forall (fun y => P y x) l -> StronglySorted P (l ++ [x]).
Proof.
  induction 1 as [|a l Hs IH Ha]; intros Hx; simpl.
  - repeat constructor.
  - inversion Hx; subst. constructor; [auto|].
    apply Forall_app. split; [assumption | now repeat constructor].
Qed.

Lemma sorted_rev (P : A -> A -> Prop) (l : list A) :
  StronglySorted (fun a b => P b a) l -> StronglySorted P (rev l).
Proof.
  induction 1 as [|a l Hs IH Ha]; simpl; [constructor|].
  apply sorted_snoc; [assumption|]. now apply Forall_rev.
Qed.

(** The reversed prefix is ascending, and stays so when an element sinks
    into it. *)
Lemma sink_sorted (x : A) (rp : list A) :
  StronglySorted (fun a b => key b >= key a) rp ->
  StronglySorted (fun a b => key b >= key a) (sort.sink (Sigma.byKey key) x rp).
Proof.
  induction 1 as [|y rp Hs IH Hy]; simpl; [repeat constructor|].
  unfold Sigma.byKey at 1. destruct (Rgt_dec (key x) (key y)) as [Hgt|Hle].
  - constructor; [assumption|].
    apply (Permutation_Forall (sink_perm (Sigma.byKey key) x rp)).
    constructor; [lra | assumption].
  - constructor; [now constructor|].
    constructor; [lra|].
    eapply Forall_impl; [|exact Hy]. simpl. intros b Hb. lra.
Qed.

Lemma Slice_descending (l : list A) :
  StronglySorted (fun a b => key a >= key b) (sort.Slice (Sigma.byKey key) l).
Proof.
  unfold sort.Slice. apply sorted_rev.
  assert (G : forall rp, StronglySorted (fun a b => key b >= key a) rp ->
              StronglySorted (fun a b => key b >= key a)
                (fold_left (fun rp x => sort.sink (Sigma.byKey key) x rp) l rp)).
  { induction l as [|x l IH]; intros rp Hrp; simpl; [assumption|].
    apply IH. now apply sink_sorted. }
  apply (G []). constructor.
Qed.
End SortByKey.

(** * The composite score in exact arithmetic *)

Section PrintExact.
Import Sigma.
Local Open Scope R_scope.
Variable CDF : R -> R.

Lemma meanStep_fold (l : list (R * R)) (a b : R) :
  fold_left stat.meanStep l (a, b) =
  (a + Rsum (map (fun p => fst p * snd p) l), b + Rsum (map fst l)).
Proof.
  revert a b; induction l as [|p l IH]; intros a b; simpl.
  - f_equal; lra.
  - unfold stat.meanStep at 2. simpl fst. simpl snd. exact_ops.
    rewrite IH. f_equal; lra.
Qed.

Lemma map_fst_combine_le {X Y : Type} (w : list X) (x : list Y) :
  (length w <= length x)%nat -> map fst (combine w x) = w.
Proof.
  revert x; induction w as [|a w IH]; intros [|b x] Hl; simpl in *;
    try reflexivity; try lia.
  f_equal. apply IH. lia.
Qed.

(** The loop of [stat.Mean] computes the weighted mean. *)
Lemma wmeanOf_weightedMean (w x : list R) :
  length w = length x -> wmeanOf w x = weightedMean w x.
Proof.
  intros Hl. unfold wmeanOf, weightedMean, dot.
  change (of_int 0) with 0. rewrite meanStep_fold. simpl fst. simpl snd.
  rewrite map_fst_combine_le by lia. exact_ops.
  now rewrite !Rplus_0_l.
Qed.

Lemma column_length (j : nat) (s : ScoreSet R) :
  length (column j s) = length (rows_of s).
Proof. unfold column. apply length_map. Qed.

Lemma scoredColumns_composite (s : ScoreSet R) :
  wf s -> scoredColumns CDF s = composite CDF s.
Proof.
  intros [_ [_ [_ Hw]]]. unfold scoredColumns, composite.
  apply map_ext. intros [j name]. simpl fst. simpl snd.
  rewrite wmeanOf_weightedMean by (rewrite column_length; exact Hw).
  exact_ops. reflexivity.
Qed.

Lemma byScore_key :
  @byScore R Exact = Sigma.byKey (@Score R).
Proof. reflexivity. Qed.



Lemma Rsum_positive (w : list R) :
  w <> [] -> Forall (fun v => 0 < v) w -> 0 < Rsum w.
Proof.
  intros Hne Hpos. induction Hpos as [|a w Ha Hw IH]; [congruence|].
  simpl. destruct w as [|b w]; [simpl; lra|].
  assert (0 < Rsum (b :: w)) by (apply IH; discriminate). lra.
Qed.


End PrintExact.





(** * Tables over one list of alternatives *)

Section TableFacts.
Context {F : Type} `{Float64 F}.

Lemma leaf_over axis (cities : list (City F)) better f :
  cities <> [] ->
  table_over (map (@Name F) cities) (leaf axis cities better f).
Proof. intros Hne. split; [now apply leaf_wf | reflexivity]. Qed.

(** Tables over the same columns always merge, once the opening checks
    have passed. *)
Lemma Merge_over (cols : list string) (sets : list (ScoreSet F)) weights :
  2 <= length sets ->
  weights_ok sets weights ->
  Forall (table_over cols) sets ->
  Merge sets weights = Ok (merged (hd emptySet sets) sets weights) /\
  table_over cols (merged (hd emptySet sets) sets weights).
Proof.
  intros Hlen Hw Hall.
  assert (Hwf : Forall wf sets).
  { eapply Forall_impl; [|exact Hall]. now intros s [Hs _]. }
  assert (HM : Merge sets weights = Ok (merged (hd emptySet sets) sets weights)).
  { destruct sets as [|s0 rest]; [simpl in Hlen; lia|]. simpl hd.
    apply Merge_ok; trivial.
    - destruct rest; [simpl in Hlen; lia | discriminate].
    - apply forallb_forall. intros s Hs. unfold cols_match. apply Nat.eqb_eq.
      rewrite Forall_forall in Hall.
      destruct (Hall s Hs) as [[_ [Hc _]] Hcols].
      destruct (Hall s0 (or_introl eq_refl)) as [_ Hcols0].
      rewrite <- Hc. congruence. }
  split; [assumption|]. split.
  - eapply Merge_wf; eassumption.
  - unfold merged; simpl. destruct sets as [|s0 rest]; [simpl in Hlen; lia|].
    rewrite Forall_forall in Hall. apply (Hall s0). now left.
Qed.

(** Induction on the way a table was built. *)
Lemma Built_induction (P : ScoreSet F -> Prop) :
  (forall axis cities better f s,
      NewScoreSet axis cities better f = Ok s -> P s) ->
  (forall sets weights s,
      Forall Built sets -> Forall P sets -> Merge sets weights = Ok s -> P s) ->
  forall s, Built s -> P s.
Proof.
  intros Hleaf Hmerge. fix IH 2. intros s [axis cities better f s' HN|sets weights s' Hall HM].
  - eapply Hleaf, HN.
  - apply (Hmerge sets weights s' Hall); [|exact HM].
    clear HM. induction Hall as [|a l Ha Hl IHl]; constructor.
    + apply IH, Ha.
    + exact IHl.
Qed.

Lemma Built_wf (s : ScoreSet F) : Built s -> wf s.
Proof.
  revert s. apply Built_induction.
  - intros axis cities better f s HN. eapply NewScoreSet_wf, HN.
  - intros sets weights s _ Hwf HM. eapply Merge_wf; eassumption.
Qed.
End TableFacts.

(** * The scoring tree *)

Section TreeFacts.
Context {F : Type} `{Float64 F}.
Variable Pow : F -> F -> F.
Variable Ceil : F -> F.
Variable Abs : F -> F.

Lemma NewScoreSet_known axis (cities : list (City F)) better f :
  cities <> [] ->
  exists s, NewScoreSet axis cities better f = Ok s /\
            known (map (@Name F) cities) [axis] one s.
Proof.
  intros Hne. exists (leaf axis cities better f).
  split; [now apply NewScoreSet_leaf|].
  split; [now apply leaf_over|]. split; reflexivity.
Qed.

Lemma Merge_known (cols : list string) (sets : list (ScoreSet F)) weights :
  2 <= length sets ->
  weights_ok sets weights ->
  Forall (table_over cols) sets ->
  exists out, Merge sets weights = Ok out /\
              known cols (concat (map (@rowNames F) sets))
                    (mergedWeights (length sets) weights (enumerate sets)) out.
Proof.
  intros Hlen Hw Hall.
  destruct (Merge_over cols sets weights Hlen Hw Hall) as [HM Hover].
  eexists. split; [exact HM|]. split; [exact Hover|]. split; reflexivity.
Qed.

(** One leaf of the tree: the table is named and its facts are kept. *)
Ltac leaf_step Hne :=
  match goal with
  | |- context [NewScoreSet ?a ?c ?b ?f] =>
      let s := fresh "s" in
      let HN := fresh "HN" in
      let Hk := fresh "Hk" in
      destruct (NewScoreSet_known a c b f Hne) as [s [HN Hk]];
      rewrite HN, bind_Ok; clear HN
  end.

(** One merge of the tree, given the proof that its weights pass. *)
Ltac merge_step cols Hw :=
  match goal with
  | |- context [Merge ?sets ?weights] =>
      let out := fresh "out" in
      let HM := fresh "HM" in
      let Hk := fresh "Hk" in
      destruct (Merge_known cols sets weights) as [out [HM Hk]];
      [ simpl; lia
      | Hw
      | repeat (apply Forall_cons;
                [match goal with
                 | K : known _ _ _ ?s |- table_over _ ?s => exact (proj1 K)
                 end|]);
        apply Forall_nil
      | rewrite HM; clear HM ]
  end.

(** The labels and weights of a merge, from those of its inputs. *)
Ltac known_rows :=
  repeat (progress (unfold enumerate, mergedWeights; simpl)
          || match goal with
             | K : known _ _ _ ?s |- context [rowNames ?s] =>
                 rewrite (proj1 (proj2 K))
             | K : known _ _ _ ?s |- context [rowWeights ?s] =>
                 rewrite (proj2 (proj2 K))
             end).

Lemma known_merge (cols rows rows' : list string) (ws ws' : list F) (s : ScoreSet F) :
  known cols rows ws s -> rows = rows' -> ws = ws' -> known cols rows' ws' s.
Proof. now intros Hk <- <-. Qed.

Lemma ScoreEducation_known (input : Input F) :
  literals_ok ->
  CandidateCities input <> [] ->
  exists s, ScoreEducation input = Ok s /\
            known (map (@Name F) (CandidateCities input))
                  educationRows educationWeights s.
Proof.
  intros [Hw4 _] Hne. unfold ScoreEducation.
  do 5 leaf_step Hne.
  merge_step (map (@Name F) (CandidateCities input))
             ltac:(split; [reflexivity | exact Hw4]).
  rewrite bind_Ok.
  merge_step (map (@Name F) (CandidateCities input)) ltac:(exact I).
  eexists. split; [reflexivity|].
  eapply known_merge; [eassumption| |]; known_rows; reflexivity.
Qed.

Lemma ScoreFinancial_known (input : Input F) :
  CandidateCities input <> [] ->
  exists s, ScoreFinancial Pow Ceil input = Ok s /\
            known (map (@Name F) (CandidateCities input))
                  ["/Financial"%string] one s.
Proof. intros Hne. unfold ScoreFinancial. now apply NewScoreSet_known. Qed.

Lemma ScoreClimate_known (input : Input F) :
  literals_ok ->
  CandidateCities input <> [] ->
  exists s, ScoreClimate input = Ok s /\
            known (map (@Name F) (CandidateCities input))
                  climateRows climateWeights s.
Proof.
  intros [_ [Hw3 _]] Hne. unfold ScoreClimate.
  do 3 leaf_step Hne.
  merge_step (map (@Name F) (CandidateCities input))
             ltac:(split; [reflexivity | exact Hw3]).
  eexists. split; [reflexivity|].
  eapply known_merge; [eassumption| |]; known_rows; reflexivity.
Qed.

Lemma ScoreFamily_known (input : Input F) :
  literals_ok ->
  CandidateCities input <> [] ->
  exists s, ScoreFamily input = Ok s /\
            known (map (@Name F) (CandidateCities input))
                  familyRows familyWeights s.
Proof.
  intros [_ [_ [Hw4 _]]] Hne. unfold ScoreFamily.
  do 4 leaf_step Hne.
  merge_step (map (@Name F) (CandidateCities input))
             ltac:(split; [reflexivity | exact Hw4]).
  eexists. split; [reflexivity|].
  eapply known_merge; [eassumption| |]; known_rows; reflexivity.
Qed.

Lemma ScoreLivability_known (input : Input F) :
  literals_ok ->
  CandidateCities input <> [] ->
  exists s, ScoreLivability Abs input = Ok s /\
            known (map (@Name F) (CandidateCities input))
                  livabilityRows livabilityWeights s.
Proof.
  intros Hlit Hne. unfold ScoreLivability.
  do 2 leaf_step Hne.
  destruct (ScoreClimate_known input Hlit Hne) as [climate [HC Hclimate]].
  rewrite HC, bind_Ok. clear HC.
  do 4 leaf_step Hne.
  merge_step (map (@Name F) (CandidateCities input)) ltac:(exact I).
  rewrite bind_Ok.
  destruct Hlit as [_ [_ [_ [Hw2 _]]]].
  merge_step (map (@Name F) (CandidateCities input))
             ltac:(split; [reflexivity | exact Hw2]).
  eexists. split; [reflexivity|].
  eapply known_merge; [eassumption| |]; known_rows; reflexivity.
Qed.

(** The table [main] prints: it is always built when there is a
    candidate city and the weight vectors of the tree pass their
    checks. *)
Lemma mainMerged_known (input : Input F) :
  literals_ok ->
  CandidateCities input <> [] ->
  exists s, mainMerged Pow Ceil Abs input = Ok s /\
            known (map (@Name F) (CandidateCities input)) mainRows mainWeights s.
Proof.
  intros Hlit Hne. unfold mainMerged.
  destruct (ScoreEducation_known input Hlit Hne) as [education [HE Heducation]].
  rewrite HE, bind_Ok. clear HE.
  destruct (ScoreFinancial_known input Hne) as [financial [HF Hfinancial]].
  rewrite HF, bind_Ok. clear HF.
  destruct (ScoreFamily_known input Hlit Hne) as [family [HY Hfamily]].
  rewrite HY, bind_Ok. clear HY.
  destruct (ScoreLivability_known input Hlit Hne) as [livability [HL Hlivability]].
  rewrite HL, bind_Ok. clear HL.
  destruct Hlit as [_ [_ [_ [_ Hw4]]]].
  merge_step (map (@Name F) (CandidateCities input))
             ltac:(split; [reflexivity | exact Hw4]).
  eexists. split; [reflexivity|].
  eapply known_merge; [eassumption| |]; known_rows; reflexivity.
Qed.
End TreeFacts.

(** * Print: the whole report *)

Section PrintReport.
Context {F : Type} `{Float64 F}.
Variable CDF : F -> F.

Lemma scoreCell_cells (row : list F) (names : list string) :
  length names <= length row ->
  forM (scoreCell CDF row) (enumerate names) [] = Ok (scoredCells CDF names row).
Proof.
  intros Hl. unfold scoredCells. rewrite <- (app_nil_l (map _ _)).
  apply forM_append. intros acc [j name] Hin. unfold scoreCell. simpl fst.
  apply In_enumerate in Hin.
  assert (Hj : j < length names) by (apply nth_error_Some; congruence).
  rewrite (index_Ok row j (of_int 0)) by lia. reflexivity.
Qed.

Lemma printAxis_reports (set : ScoreSet F) :
  wf set ->
  forM (printAxis CDF set) (enumerate (rowNames set)) [] =
  Ok (axisReports CDF set).
Proof.
  intros [[_ [_ Hrows]] [Hc [Hn Hw]]].
  unfold axisReports. rewrite <- (app_nil_l (map _ _)).
  apply forM_append. intros acc [i axis] Hin. apply In_enumerate in Hin.
  assert (Hi : i < length (rowNames set)) by (apply nth_error_Some; congruence).
  unfold printAxis. simpl fst. simpl snd.
  rewrite (index_Ok (rowWeights set) i (of_int 0)) by lia. rewrite bind_Ok.
  unfold mat.Row. fold (rows_of set).
  rewrite (nth_error_nth' (rows_of set) []) by (unfold rows_of; lia).
  rewrite bind_Ok, scoreCell_cells, bind_Ok; [reflexivity|].
  rewrite Forall_forall in Hrows. rewrite (Hrows (nth i (rows_of set) [])); [lia|].
  apply nth_In. unfold rows_of. lia.
Qed.

(** [Print] on a well-formed table. *)
Lemma Print_report (set : ScoreSet F) :
  wf set ->
  Print CDF set =
  Ok {| header := rowNames set;
        data := scores set;
        axes := axisReports CDF set;
        final := sort.Slice byScore (scoredColumns CDF set) |}.
Proof.
  intros Hwf. unfold Print.
  rewrite (printAxis_reports set Hwf), bind_Ok.
  rewrite (scoreColumn_loop CDF set Hwf), bind_Ok. reflexivity.
Qed.

Lemma scoredCells_names (names : list string) (row : list F) :
  map (@scored_Name F) (scoredCells CDF names row) = names.
Proof.
  unfold scoredCells, enumerate. rewrite map_map. simpl.
  generalize 0 as k. induction names as [|n names IH]; intros k; simpl;
    [reflexivity | now rewrite IH].
Qed.

Lemma scoredColumns_names (set : ScoreSet F) :
  map (@scored_Name F) (scoredColumns CDF set) = columnNames set.
Proof.
  unfold scoredColumns, enumerate. rewrite map_map. simpl.
  generalize 0 as k. induction (columnNames set) as [|n names IH]; intros k;
    simpl; [reflexivity | now rewrite IH].
Qed.

Lemma axisReports_names (set : ScoreSet F) :
  map (@axis_name F) (axisReports CDF set) = rowNames set.
Proof.
  unfold axisReports, enumerate. rewrite map_map. simpl.
  generalize 0 as k. induction (rowNames set) as [|n names IH]; intros k;
    simpl; [reflexivity | now rewrite IH].
Qed.
End PrintReport.

Lemma Forall_map_self {A B : Type} (P : B -> Prop) (g : A -> B) (l : list A) :
  (forall a, In a l -> P (g a)) -> Forall P (map g l).
Proof.
  intros Hg. apply Forall_forall. intros b Hb.
  apply in_map_iff in Hb. destruct Hb as [a [<- Ha]]. now apply Hg.
Qed.


(** X1: for every instance of float64 (binary64 with its NaN included)
    and every CDF, [Print] returns on a well-formed table; the report
    carries the row labels and the matrix as they are, one block per row
    in row order, and every ranking in it, per axis and final, lists the
    alternatives of the table, each as often as the columns name it. *)
Theorem Print_lists_every_alternative {F : Type} `{Float64 F}
        (CDF : F -> F) (set : ScoreSet F) :
  wf set ->
  exists rep,
    Print CDF set = Ok rep /\
    header rep = rowNames set /\
    data rep = scores set /\
    map (@axis_name F) (axes rep) = rowNames set /\
    Forall (fun a => Permutation (columnNames set)
                                 (map (@scored_Name F) (ranking a)))
           (axes rep) /\
    Permutation (columnNames set) (map (@scored_Name F) (final rep)).
Proof.
  intros Hwf. eexists. split; [apply (Print_report CDF set Hwf)|].
  cbn [header data axes final].
  split; [reflexivity|]. split; [reflexivity|].
  split; [apply axisReports_names|]. split.
  - unfold axisReports. apply Forall_map_self. intros ia _. cbn [ranking].
    rewrite <- (scoredCells_names CDF (columnNames set)
                                 (nth (fst ia) (rows_of set) [])) at 1.
    apply Permutation_map, Slice_perm.
  - rewrite <- (scoredColumns_names CDF set) at 1.
    apply Permutation_map, Slice_perm.
Qed.

(** The binary64 table with the axes "/Education/Math" and
    "/Education/Reading". *)
Lemma Print_lists_every_alternative_witness :
  exists rep,
    Print ramp64 B64.math_reading = Ok rep /\
    header rep = rowNames B64.math_reading /\
    data rep = scores B64.math_reading /\
    map (@axis_name float) (axes rep) = rowNames B64.math_reading /\
    Forall (fun a => Permutation (columnNames B64.math_reading)
                                 (map (@scored_Name float) (ranking a)))
           (axes rep) /\
    Permutation (columnNames B64.math_reading)
                (map (@scored_Name float) (final rep)).
Proof.
  apply (Print_lists_every_alternative ramp64 B64.math_reading).
  repeat constructor; simpl; discriminate.
Defined.



(** * The composite score lies between the extremes *)

Lemma In_enumerate_inv {A : Type} (l : list A) (i : nat) (a : A) :
  nth_error l i = Some a -> In (i, a) (enumerate l).
Proof.
  unfold enumerate.
  assert (G : forall k, nth_error l i = Some a ->
                        In (k + i, a) (combine (seq k (length l)) l)).
  { revert i. induction l as [|b l IH]; intros i k Hn; [destruct i; discriminate|].
    destruct i as [|i]; simpl in *.
    - injection Hn as ->. left. f_equal. lia.
    - right. replace (k + S i) with (S k + i) by lia. now apply IH. }
  intros Hn. apply (G 0 Hn).
Qed.
Section Between.
Import Sigma.
Local Open Scope R_scope.

Lemma dot_between (lo hi : R) (w x : list R) :
  length w = length x ->
  Forall (fun v => 0 < v) w ->
  Forall (fun z => lo <= z <= hi) x ->
  lo * Rsum w <= dot w x <= hi * Rsum w.
Proof.
  unfold dot. revert x; induction w as [|a w IH]; intros [|b x] Hl Hw Hx;
    simpl in *; try lia; [lra|].
  inversion Hw; subst. inversion Hx; subst.
  destruct (IH x) as [Hlo Hhi]; [lia | assumption | assumption |].
  split; nra.
Qed.

Lemma weightedMean_between (lo hi : R) (w x : list R) :
  w <> [] ->
  length w = length x ->
  Forall (fun v => 0 < v) w ->
  Forall (fun z => lo <= z <= hi) x ->
  lo <= weightedMean w x <= hi.
Proof.
  intros Hne Hl Hw Hx.
  pose proof (Rsum_positive w Hne Hw) as Hpos.
  destruct (dot_between lo hi w x Hl Hw Hx) as [Hlo Hhi].
  unfold weightedMean. split.
  - apply Rmult_le_reg_r with (Rsum w); [assumption|].
    unfold Rdiv. rewrite Rmult_assoc, Rinv_l by lra. lra.
  - apply Rmult_le_reg_r with (Rsum w); [assumption|].
    unfold Rdiv. rewrite Rmult_assoc, Rinv_l by lra. lra.
Qed.

End Between.

(** X3: in exact arithmetic, for a well-formed table with strictly
    positive row weights and a weakly increasing CDF, the composite
    percentile of an alternative lies between 100 times the CDF of any
    lower bound and 100 times the CDF of any upper bound of the
    alternative's z-scores: it is never below its worst axis nor above
    its best. *)
Theorem Print_composite_between (CDF : R -> R) (set : ScoreSet R)
        (j : nat) (name : string) (lo hi : R) :
  wf set ->
  Forall (fun w => (0 < w)%R) (rowWeights set) ->
  monotone CDF ->
  nth_error (columnNames set) j = Some name ->
  Forall (fun z => (lo <= z <= hi)%R) (column j set) ->
  exists rep score,
    Print CDF set = Ok rep /\
    In {| scored_Name := name; Score := score |} (final rep) /\
    (100 * CDF lo <= score <= 100 * CDF hi)%R.
Proof.
  intros Hwf Hpos Hmono Hj Hcol.
  exists {| header := rowNames set; data := scores set;
            axes := axisReports CDF set;
            final := sort.Slice byScore (scoredColumns CDF set) |},
         (100 * CDF (Sigma.weightedMean (rowWeights set) (column j set)))%R.
  split; [apply (Print_report CDF set Hwf)|]. cbn [final]. split.
  - apply (Permutation_in _ (Slice_perm byScore (scoredColumns CDF set))).
    rewrite (scoredColumns_composite CDF set Hwf). unfold Sigma.composite.
    apply in_map_iff. exists (j, name). split; [reflexivity|].
    now apply In_enumerate_inv.
  - assert (Hm : (lo <= Sigma.weightedMean (rowWeights set) (column j set) <= hi)%R).
    { apply weightedMean_between; trivial.
      - destruct Hwf as [[Hne _] [_ [_ Hw]]]. intros E. rewrite E in Hw.
        simpl in Hw. destruct (mat.RowsOf (scores set)); [congruence | discriminate].
      - rewrite column_length. apply Hwf. }
    destruct Hm as [Hlo Hhi].
    pose proof (Hmono _ _ Hlo). pose proof (Hmono _ _ Hhi). lra.
Qed.

(** Column "A" of the table with the axes "/Education/Math" and
    "/Financial": its z-scores are -1 and 1. *)
Lemma Print_composite_between_witness :
  exists rep score,
    Print Sigma.ramp Sigma.both = Ok rep /\
    In {| scored_Name := "A"%string; Score := score |} (final rep) /\
    (100 * Sigma.ramp (-1) <= score <= 100 * Sigma.ramp 1)%R.
Proof.
  apply (Print_composite_between Sigma.ramp Sigma.both 0 "A"%string (-1)%R 1%R).
  - repeat constructor; simpl; discriminate.
  - unfold Sigma.both, Sigma.seven_three. simpl. repeat constructor; lra.
  - intros a b Hab. unfold Sigma.ramp.
    apply Rle_max_compat_l, Rle_min_compat_l. lra.
  - reflexivity.
  - unfold column, Sigma.both. simpl. repeat constructor; lra.
Defined.

(** * The leaf table: shape, units, ranking *)

(** X4: for every instance of float64, [NewScoreSet] returns on every
    non-empty list of alternatives, whatever the extractor yields; the
    table is well-formed, its columns are the alternatives' names in
    input order, and it has one row, labelled with the axis, of weight
    1.0, with one entry per alternative. *)
Theorem NewScoreSet_builds_leaf {F : Type} `{Float64 F} (axis : string)
        (cities : list (City F)) (better : ScoreGoal) (f : ScoreFunc F) :
  cities <> [] ->
  exists s row,
    NewScoreSet axis cities better f = Ok s /\
    wf s /\
    columnNames s = map (@Name F) cities /\
    rowNames s = [axis] /\
    rowWeights s = [of_int 1] /\
    rows_of s = [row] /\
    length row = length cities.
Proof.
  intros Hne. exists (leaf axis cities better f), (zrow better (map f cities)).
  split; [now apply NewScoreSet_leaf|]. split; [now apply leaf_wf|].
  repeat (split; [reflexivity|]). unfold zrow. now rewrite !length_map.
Qed.

(** Three cities in binary64. *)
Lemma NewScoreSet_builds_leaf_witness :
  exists s row,
    NewScoreSet "/Education/Math" B64.abc SMALLER byMath = Ok s /\
    wf s /\
    columnNames s = map (@Name float) B64.abc /\
    rowNames s = ["/Education/Math"%string] /\
    rowWeights s = [of_int 1] /\
    rows_of s = [row] /\
    length row = length B64.abc.
Proof.
  apply (NewScoreSet_builds_leaf "/Education/Math" B64.abc SMALLER byMath).
  discriminate.
Defined.

Section Units.
Import Sigma.
Local Open Scope R_scope.

Lemma Rsum_affine (a b : R) (x : list R) :
  Rsum (map (fun v => a * v + b) x) = a * Rsum x + INR (length x) * b.
Proof.
  induction x as [|v x IH]; [simpl; lra|].
  change (length (v :: x)) with (S (length x)). rewrite S_INR.
  simpl. rewrite IH. lra.
Qed.

Lemma sampleMean_affine (a b : R) (x : list R) :
  x <> [] ->
  sampleMean (map (fun v => a * v + b) x) = a * sampleMean x + b.
Proof.
  intros Hne. unfold sampleMean. rewrite Rsum_affine, length_map.
  assert (INR (length x) <> 0) by (apply not_0_INR; destruct x; simpl; congruence).
  now field.
Qed.

Lemma sumSquares_affine (a b : R) (x : list R) :
  x <> [] ->
  sumSquares (map (fun v => a * v + b) x) = a * a * sumSquares x.
Proof.
  intros Hne. unfold sumSquares. rewrite sampleMean_affine by assumption.
  rewrite map_map. rewrite <- Rsum_map_scale. apply Rsum_map_ext.
  intros v _. ring.
Qed.

Lemma sampleStdDev_affine (a b : R) (x : list R) :
  x <> [] ->
  sampleStdDev (map (fun v => a * v + b) x) = Rabs a * sampleStdDev x.
Proof.
  intros Hne. unfold sampleStdDev.
  rewrite sumSquares_affine, length_map by assumption.
  replace (a * a * sumSquares x / (INR (length x) - 1))
    with (Rsqr a * (sumSquares x / (INR (length x) - 1)))
    by (unfold Rsqr, Rdiv; ring).
  rewrite sqrt_mult_alt by apply Rle_0_sqr.
  now rewrite sqrt_Rsqr_abs.
Qed.

(** The z-scores do not change with the unit or the origin of the raw
    values; a negative factor changes their sign. *)
Lemma zrow_affine (better : ScoreGoal) (a b : R) (x : list R) (u v : R) :
  In u x -> In v x -> u <> v -> a <> 0 ->
  zrow better (map (fun t => a * t + b) x) =
  zrow (if Rlt_dec 0 a then better else opposite better) x.
Proof.
  intros Hu Hv Hne Ha.
  assert (Hx : x <> []) by (destruct x; [destruct Hu | discriminate]).
  destruct (sampleStdDev_pos x u v Hu Hv Hne) as [Hsd _].
  rewrite (zrow_exact better (map (fun t => a * t + b) x))
    by (destruct x; [congruence | discriminate]).
  rewrite (zrow_exact _ x) by assumption.
  rewrite sampleMean_affine, sampleStdDev_affine by assumption.
  rewrite map_map. apply map_ext. intros t.
  destruct (Rlt_dec 0 a) as [Hpos|Hneg].
  - rewrite Rabs_right by lra. field. lra.
  - rewrite Rabs_left by lra.
    destruct better; cbn [direction opposite]; field; lra.
Qed.
End Units.

(** X5: in exact arithmetic, for a list of alternatives with two
    distinct raw values, replacing the extractor [f] by [a * f + b]
    (another unit, another origin) gives the same table when [a] is
    positive, and the table of the opposite goal when [a] is negative: an
    axis such as "20000 - rank" with [BIGGER] is the axis "rank" with
    [SMALLER]. *)
Theorem NewScoreSet_unit_free (axis : string) (cities : list (City R))
        (better : ScoreGoal) (f g : ScoreFunc R) (a b : R) :
  (exists c1 c2, In c1 cities /\ In c2 cities /\ f c1 <> f c2) ->
  (forall c, In c cities -> g c = (a * f c + b)%R) ->
  ((0 < a)%R ->
   NewScoreSet axis cities better g = NewScoreSet axis cities better f) /\
  ((a < 0)%R ->
   NewScoreSet axis cities better g = NewScoreSet axis cities (opposite better) f).
Proof.
  intros [c1 [c2 [H1 [H2 Hne]]]] Hg.
  assert (Hc : cities <> []) by (destruct cities; [destruct H1 | discriminate]).
  assert (Hmap : map g cities = map (fun t => (a * t + b)%R) (map f cities)).
  { rewrite map_map. apply map_ext_in. exact Hg. }
  assert (Hrow : (a <> 0)%R ->
            zrow better (map g cities) =
            zrow (if Rlt_dec 0 a then better else opposite better) (map f cities)).
  { intros Ha. rewrite Hmap.
    apply (zrow_affine better a b (map f cities) (f c1) (f c2));
      [now apply in_map | now apply in_map | assumption | assumption]. }
  split; intros Ha; rewrite !NewScoreSet_leaf by assumption; unfold leaf;
    rewrite Hrow by lra; destruct (Rlt_dec 0 a); try reflexivity; lra.
Qed.

(** The scores 10, 20, 30 read as 20000 minus the score. *)
Lemma NewScoreSet_unit_free_witness :
  ((0 < -1)%R ->
   NewScoreSet "/Education/USNews" Sigma.abc BIGGER
               (fun c => (-1 * byMath c + 20000)%R)
   = NewScoreSet "/Education/USNews" Sigma.abc BIGGER byMath) /\
  ((-1 < 0)%R ->
   NewScoreSet "/Education/USNews" Sigma.abc BIGGER
               (fun c => (-1 * byMath c + 20000)%R)
   = NewScoreSet "/Education/USNews" Sigma.abc (opposite BIGGER) byMath).
Proof.
  apply (NewScoreSet_unit_free "/Education/USNews" Sigma.abc BIGGER byMath
                               (fun c => (-1 * byMath c + 20000)%R)
                               (-1)%R 20000%R).
  - exists (plainCity "A" 10%R), (plainCity "B" 20%R).
    split; [simpl; auto|]. split; [simpl; auto|].
    unfold byMath; simpl. lra.
  - intros c _. reflexivity.
Defined.

(** * A leaf table, printed *)

Lemma map_enumerate_nth {A B C : Type} (G : string -> B -> C) (N : A -> string)
      (h : A -> B) (d : B) (l : list A) :
  map (fun jn => G (snd jn) (nth (fst jn) (map h l) d)) (enumerate (map N l))
  = map (fun c => G (N c) (h c)) l.
Proof.
  unfold enumerate. rewrite length_map.
  assert (K : forall pre,
             map (fun jn => G (snd jn) (nth (fst jn) (map h (pre ++ l)) d))
                 (combine (seq (length pre) (length l)) (map N l))
             = map (fun c => G (N c) (h c)) l).
  { induction l as [|a l IH]; intros pre; simpl; [reflexivity|].
    f_equal.
    - rewrite map_app, app_nth2 by (rewrite length_map; lia).
      rewrite length_map, Nat.sub_diag. reflexivity.
    - specialize (IH (pre ++ [a])). rewrite <- app_assoc in IH. simpl in IH.
      rewrite length_app in IH. simpl in IH.
      replace (length pre + 1) with (S (length pre)) in IH by lia.
      exact IH. }
  apply (K []).
Qed.

Section LeafPrinted.
Import Sigma.
Local Open Scope R_scope.
Variable CDF : R -> R.

Lemma weightedMean_single (z : R) : weightedMean [1] [z] = z.
Proof. unfold weightedMean, dot. simpl. field. Qed.

Lemma composite_leaf axis (cities : list (City R)) better f :
  cities <> [] ->
  composite CDF (leaf axis cities better f) =
  map (fun c => {| scored_Name := Name c;
                   Score := leafScore CDF better (map f cities) (f c) |})
      cities.
Proof.
  intros Hne. unfold composite. cbn [columnNames rowWeights leaf].
  unfold column, rows_of. cbn [scores leaf mat.RowsOf map].
  rewrite zrow_exact by (destruct cities; [congruence | discriminate]).
  rewrite map_map.
  rewrite (map_enumerate_nth
             (fun name z => {| scored_Name := name;
                               Score := 100 * CDF (weightedMean [of_int 1] [z]) |})
             (@Name R)
             (fun c => direction better *
                       ((f c - sampleMean (map f cities)) / sampleStdDev (map f cities)))
             (of_int 0) cities).
  apply map_ext. intros c. unfold leafScore.
  change (of_int 1) with 1. now rewrite weightedMean_single.
Qed.

Lemma leafScore_increasing better (raw : list R) (a b u v : R) :
  In a raw -> In b raw -> a <> b ->
  increasing CDF ->
  direction better * u < direction better * v ->
  leafScore CDF better raw u < leafScore CDF better raw v.
Proof.
  intros Ha Hb Hab Hinc Huv.
  destruct (sampleStdDev_pos raw a b Ha Hb Hab) as [Hsd _].
  unfold leafScore.
  assert (Hz : direction better * ((u - sampleMean raw) / sampleStdDev raw)
               < direction better * ((v - sampleMean raw) / sampleStdDev raw)).
  { replace (direction better * ((u - sampleMean raw) / sampleStdDev raw))
      with ((direction better * u - direction better * sampleMean raw)
              * / sampleStdDev raw) by (field; lra).
    replace (direction better * ((v - sampleMean raw) / sampleStdDev raw))
      with ((direction better * v - direction better * sampleMean raw)
              * / sampleStdDev raw) by (field; lra).
    apply Rmult_lt_compat_r; [now apply Rinv_0_lt_compat | lra]. }
  pose proof (Hinc _ _ Hz). lra.
Qed.
End LeafPrinted.

(** X6: in exact arithmetic, for a list of alternatives with two
    distinct raw values and a strictly increasing CDF, the table that
    [NewScoreSet] builds is printed with a final ranking that holds, for
    each alternative, its name and 100 times the CDF of its z-score, by
    descending percentile; and a raw value that is better for the goal
    (larger for [BIGGER], smaller for [SMALLER]) has the strictly higher
    percentile. *)
Theorem leaf_ranked_by_raw_value (CDF : R -> R) (axis : string)
        (cities : list (City R)) (better : ScoreGoal) (f : ScoreFunc R) :
  (exists c1 c2, In c1 cities /\ In c2 cities /\ f c1 <> f c2) ->
  increasing CDF ->
  exists s rep,
    NewScoreSet axis cities better f = Ok s /\
    Print CDF s = Ok rep /\
    Permutation
      (map (fun c => {| scored_Name := Name c;
                        Score := leafScore CDF better (map f cities) (f c) |})
           cities)
      (final rep) /\
    Sigma.descending (final rep) /\
    (forall u v,
        (Sigma.direction better * u < Sigma.direction better * v)%R ->
        (leafScore CDF better (map f cities) u
         < leafScore CDF better (map f cities) v)%R).
Proof.
  intros [c1 [c2 [H1 [H2 Hne]]]] Hinc.
  assert (Hc : cities <> []) by (destruct cities; [destruct H1 | discriminate]).
  pose proof (leaf_wf axis cities better f Hc) as Hwf.
  exists (leaf axis cities better f).
  eexists. split; [now apply NewScoreSet_leaf|].
  split; [apply (Print_report CDF _ Hwf)|]. cbn [final].
  rewrite (scoredColumns_composite CDF _ Hwf), composite_leaf by assumption.
  split; [apply Slice_perm|]. split.
  - unfold Sigma.descending. rewrite byScore_key.
    apply (Slice_descending (@Score R)).
  - intros u v Huv.
    apply (leafScore_increasing CDF better (map f cities) (f c1) (f c2));
      [now apply in_map | now apply in_map | assumption | assumption | assumption].
Qed.

(** The raw values 10, 20, 30 with the goal [SMALLER]. *)
Lemma leaf_ranked_by_raw_value_witness :
  exists s rep,
    NewScoreSet "/Financial" Sigma.abc SMALLER byMath = Ok s /\
    Print line s = Ok rep /\
    Permutation
      (map (fun c => {| scored_Name := Name c;
                        Score := leafScore line SMALLER (map byMath Sigma.abc)
                                           (byMath c) |})
           Sigma.abc)
      (final rep) /\
    Sigma.descending (final rep) /\
    (forall u v,
        (Sigma.direction SMALLER * u < Sigma.direction SMALLER * v)%R ->
        (leafScore line SMALLER (map byMath Sigma.abc) u
         < leafScore line SMALLER (map byMath Sigma.abc) v)%R).
Proof.
  apply (leaf_ranked_by_raw_value line "/Financial" Sigma.abc SMALLER byMath).
  - exists (plainCity "A" 10%R), (plainCity "B" 20%R).
    split; [simpl; auto|]. split; [simpl; auto|].
    unfold byMath; simpl. lra.
  - intros a b Hab. unfold line. lra.
Defined.

(** * Merge: shape and hierarchy *)

(** X7: for every instance of float64, a [Merge] of well-formed tables
    that returns gives a well-formed table: as many row labels and row
    weights as matrix rows, every row as long as the column names; it has
    as many rows as the inputs have together, and as many columns as each
    input. *)
Theorem Merge_keeps_shape {F : Type} `{Float64 F} (sets : list (ScoreSet F))
        (weights : option (list F)) (out : ScoreSet F) :
  Forall wf sets ->
  Merge sets weights = Ok out ->
  wf out /\
  length (rows_of out) = list_sum (map (fun s => length (rows_of s)) sets) /\
  (forall s, In s sets -> length (columnNames s) = length (columnNames out)).
Proof.
  intros Hwf HM. split; [eapply Merge_wf; eassumption|].
  destruct (Merge_Ok_inv _ _ _ HM) as [Hlen [_ Hcols]].
  rewrite (Merge_Ok_merged _ _ _ Hwf HM).
  unfold merged, rows_of at 1; cbn [scores columnNames mat.RowsOf]. split.
  - clear. induction sets as [|s l IH]; simpl; [reflexivity|].
    now rewrite length_app, IH.
  - intros s Hs. rewrite forallb_forall in Hcols.
    specialize (Hcols s Hs). unfold cols_match in Hcols.
    apply Nat.eqb_eq in Hcols. rewrite <- Hcols.
    rewrite Forall_forall in Hwf. apply (Hwf s Hs).
Qed.

(** The two single-row tables of the merge scenario, in binary64. *)
Lemma Merge_keeps_shape_witness :
  wf B64.math_reading /\
  length (rows_of B64.math_reading)
  = list_sum (map (fun s => length (rows_of s)) [B64.math; B64.reading]) /\
  (forall s, In s [B64.math; B64.reading] ->
             length (columnNames s) = length (columnNames B64.math_reading)).
Proof.
  apply (Merge_keeps_shape [B64.math; B64.reading] (Some B64.seven_three)
                           B64.math_reading).
  - repeat constructor; simpl; discriminate.
  - vm_compute. reflexivity.
Defined.

Section Hierarchy.
Import Sigma.
Local Open Scope R_scope.

Lemma total_one : total (@one R Exact) = 1.
Proof. unfold total, one. exact_ops. simpl. lra. Qed.

(** Row weights that sum to 1 in every input sum to 1 in the output. *)
Lemma Merge_total_one (sets : list (ScoreSet R)) weights (out : ScoreSet R) :
  Forall wf sets ->
  (forall s, In s sets -> total (rowWeights s) = 1) ->
  Merge sets weights = Ok out ->
  total (rowWeights out) = 1.
Proof.
  intros Hwf Hone HM.
  destruct (Merge_concatenates_weights sets weights out Hwf HM) as [Hlen Hrw].
  destruct (Merge_Ok_inv _ _ _ HM) as [_ [Hw _]].
  assert (Hone' : forall s, In s sets -> Rsum (rowWeights s) = 1)
    by (intros s Hs; rewrite <- total_Rsum; now apply Hone).
  rewrite total_Rsum. destruct weights as [ws|].
  - destruct Hrw as [Hl ->]. rewrite Rsum_concat, map_map.
    rewrite (Rsum_map_ext _ (fun p => fst p * Rsum (rowWeights (snd p))))
      by (intros p _; apply Rsum_scaled_by).
    rewrite Rsum_shares by assumption.
    rewrite <- total_Rsum. eapply weights_ok_total, Hw.
  - rewrite Hrw, Rsum_concat, map_map.
    rewrite (Rsum_map_ext _ (fun s => / INR (length sets) * Rsum (rowWeights s))).
    2:{ intros s _. rewrite Rsum_divided_by, of_int_nat. unfold Rdiv. ring. }
    rewrite Rsum_map_scale, Rsum_ones by assumption.
    apply Rinv_l, not_0_INR. lia.
Qed.
End Hierarchy.

(** X8: in exact arithmetic, every table the program can make, a leaf of
    [NewScoreSet] or a [Merge] of such tables to any depth, with explicit
    or nil weight vectors, is well-formed and has row weights that sum to
    1. *)
Theorem Built_weights_sum_to_one (s : ScoreSet R) :
  Built s -> wf s /\ total (rowWeights s) = 1%R.
Proof.
  intros Hb. split; [now apply Built_wf|]. revert s Hb.
  apply Built_induction.
  - intros axis cities better f s HN.
    destruct cities as [|c cities].
    + unfold NewScoreSet in HN.
      rewrite MeanStdDev_nil_weights, bind_Ok in HN. discriminate.
    + rewrite NewScoreSet_leaf in HN by discriminate.
      injection HN as <-. apply total_one.
  - intros sets weights s Hb Hall HM.
    apply (Merge_total_one sets weights s); [|now apply Forall_forall|assumption].
    eapply Forall_impl; [|exact Hb]. apply Built_wf.
Qed.

(** The equal-split merge of two leaves over the scores 10, 20, 30. *)
Lemma Built_weights_sum_to_one_witness :
  let m := leaf "/Education/Math" Sigma.abc BIGGER byMath in
  let r := leaf "/Education/Reading" Sigma.abc BIGGER byMath in
  wf (merged m [m; r] None) /\ total (rowWeights (merged m [m; r] None)) = 1%R.
Proof.
  intros m r. apply (Built_weights_sum_to_one (merged m [m; r] None)).
  apply (@Built_merge R Exact [m; r] None).
  - repeat constructor.
    + apply (@Built_leaf R Exact "/Education/Math" Sigma.abc BIGGER byMath).
      apply NewScoreSet_leaf. discriminate.
    + apply (@Built_leaf R Exact "/Education/Reading" Sigma.abc BIGGER byMath).
      apply NewScoreSet_leaf. discriminate.
  - apply (Merge_over (map (@Name R) Sigma.abc) [m; r] None).
    + simpl. lia.
    + exact I.
    + repeat constructor; apply leaf_wf; discriminate.
Defined.

(** * A merge of a merge *)


Section Flatten.
Import Sigma.
Local Open Scope R_scope.




Lemma fne_false (a b : R) : a = b -> fne a b = false.
Proof. intros ->. exact_ops. destruct (Req_dec_T b b); [reflexivity | congruence]. Qed.



End Flatten.

(** * The scoring tree in binary64 and in exact arithmetic *)

Lemma literals_ok_binary64 : @literals_ok float Binary64.
Proof. repeat split; vm_compute; reflexivity. Qed.

Lemma dec_exact (m : Z) (k : nat) :
  @dec R Exact m k = (IZR m / IZR (10 ^ Z.of_nat k))%R.
Proof. reflexivity. Qed.

Lemma literals_ok_exact : @literals_ok R Exact.
Proof.
  unfold literals_ok. repeat split; apply fne_false; rewrite total_Rsum;
    simpl; rewrite ?dec_exact; change (@of_int R Exact 1) with 1%R;
    simpl; lra.
Qed.

(** A table that is known stays known under equal labels and weights. *)
Lemma known_parts {F : Type} `{Float64 F} (cols rows : list string)
      (ws : list F) (s : ScoreSet F) :
  known cols rows ws s ->
  wf s /\ columnNames s = cols /\ rowNames s = rows /\ rowWeights s = ws.
Proof. intros [[Hwf Hc] [Hr Hw]]. auto. Qed.

(** X10: in binary64, for every input with a candidate city,
    [ScoreEducation] returns: the weights 0.3, 0.3, 0.1, 0.3 pass the
    exact test of [Merge].  The table is well-formed, over the cities in
    input order, with the five education axes in the order USNews, Math,
    Reading, Graduation, CollegeReadiness; the equal split gives USNews
    the row weight 0.5 and the four others 0.3/2, 0.3/2, 0.1/2, 0.3/2. *)
Theorem ScoreEducation_binary64 (input : Input float) :
  CandidateCities input <> [] ->
  exists s,
    ScoreEducation input = Ok s /\
    wf s /\
    columnNames s = map (@Name float) (CandidateCities input) /\
    rowNames s = educationRows /\
    rowWeights s = [0.5; 0.14999999999999999; 0.14999999999999999;
                    0.050000000000000003; 0.14999999999999999]%float.
Proof.
  intros Hne.
  destruct (ScoreEducation_known input literals_ok_binary64 Hne) as [s [HS Hk]].
  exists s. split; [exact HS|]. apply known_parts in Hk.
  destruct Hk as [Hwf [Hc [Hr Hw]]]. repeat (split; [assumption|]).
  rewrite Hw. vm_compute. reflexivity.
Qed.

Lemma ScoreEducation_binary64_witness :
  exists s,
    ScoreEducation input64 = Ok s /\
    wf s /\
    columnNames s = map (@Name float) (CandidateCities input64) /\
    rowNames s = educationRows /\
    rowWeights s = [0.5; 0.14999999999999999; 0.14999999999999999;
                    0.050000000000000003; 0.14999999999999999]%float.
Proof. apply (ScoreEducation_binary64 input64). discriminate. Defined.

(** X11: in binary64, for every input with a candidate city,
    [ScoreClimate] returns a well-formed table over the cities with the
    axes Sunshine, Precip, Snow, in that order, under the row weights
    0.45, 0.45, 0.10, which pass the exact test of [Merge]. *)
Theorem ScoreClimate_binary64 (input : Input float) :
  CandidateCities input <> [] ->
  exists s,
    ScoreClimate input = Ok s /\
    wf s /\
    columnNames s = map (@Name float) (CandidateCities input) /\
    rowNames s = climateRows /\
    rowWeights s = [0.45; 0.45; 0.10]%float.
Proof.
  intros Hne.
  destruct (ScoreClimate_known input literals_ok_binary64 Hne) as [s [HS Hk]].
  exists s. split; [exact HS|]. apply known_parts in Hk.
  destruct Hk as [Hwf [Hc [Hr Hw]]]. repeat (split; [assumption|]).
  rewrite Hw. vm_compute. reflexivity.
Qed.

Lemma ScoreClimate_binary64_witness :
  exists s,
    ScoreClimate input64 = Ok s /\
    wf s /\
    columnNames s = map (@Name float) (CandidateCities input64) /\
    rowNames s = climateRows /\
    rowWeights s = [0.45; 0.45; 0.10]%float.
Proof. apply (ScoreClimate_binary64 input64). discriminate. Defined.

(** X12: in binary64, for every input with a candidate city,
    [ScoreFamily] returns a well-formed table over the cities with the
    axes Margaret, Nich, Peggy, Ryan, in that order, under the row
    weights 0.35, 0.20, 0.35, 0.10, which pass the exact test of
    [Merge]. *)
Theorem ScoreFamily_binary64 (input : Input float) :
  CandidateCities input <> [] ->
  exists s,
    ScoreFamily input = Ok s /\
    wf s /\
    columnNames s = map (@Name float) (CandidateCities input) /\
    rowNames s = familyRows /\
    rowWeights s = [0.35; 0.20; 0.35; 0.10]%float.
Proof.
  intros Hne.
  destruct (ScoreFamily_known input literals_ok_binary64 Hne) as [s [HS Hk]].
  exists s. split; [exact HS|]. apply known_parts in Hk.
  destruct Hk as [Hwf [Hc [Hr Hw]]]. repeat (split; [assumption|]).
  rewrite Hw. vm_compute. reflexivity.
Qed.

Lemma ScoreFamily_binary64_witness :
  exists s,
    ScoreFamily input64 = Ok s /\
    wf s /\
    columnNames s = map (@Name float) (CandidateCities input64) /\
    rowNames s = familyRows /\
    rowWeights s = [0.35; 0.20; 0.35; 0.10]%float.
Proof. apply (ScoreFamily_binary64 input64). discriminate. Defined.

(** X13: in binary64, for every input with a candidate city and
    whatever [math.Abs] computes, [ScoreLivability] returns a well-formed
    table over the cities with nine axes: Crime, Politics, Culture,
    Running, the three climate axes, WalkScore, then Airport.  The six
    sets of the equal split share 0.95, the climate set dividing its
    sixth among its three axes, and Airport has 0.05. *)
Theorem ScoreLivability_binary64 (Abs : float -> float) (input : Input float) :
  CandidateCities input <> [] ->
  exists s,
    ScoreLivability Abs input = Ok s /\
    wf s /\
    columnNames s = map (@Name float) (CandidateCities input) /\
    rowNames s = livabilityRows /\
    rowWeights s = [0.15833333333333333; 0.15833333333333333;
                    0.15833333333333333; 0.15833333333333333;
                    0.071249999999999994; 0.071249999999999994;
                    0.015833333333333331; 0.15833333333333333;
                    0.050000000000000003]%float.
Proof.
  intros Hne.
  destruct (ScoreLivability_known Abs input literals_ok_binary64 Hne)
    as [s [HS Hk]].
  exists s. split; [exact HS|]. apply known_parts in Hk.
  destruct Hk as [Hwf [Hc [Hr Hw]]]. repeat (split; [assumption|]).
  rewrite Hw. vm_compute. reflexivity.
Qed.

Lemma ScoreLivability_binary64_witness :
  exists s,
    ScoreLivability PrimFloat.abs input64 = Ok s /\
    wf s /\
    columnNames s = map (@Name float) (CandidateCities input64) /\
    rowNames s = livabilityRows /\
    rowWeights s = [0.15833333333333333; 0.15833333333333333;
                    0.15833333333333333; 0.15833333333333333;
                    0.071249999999999994; 0.071249999999999994;
                    0.015833333333333331; 0.15833333333333333;
                    0.050000000000000003]%float.
Proof. apply (ScoreLivability_binary64 PrimFloat.abs input64). discriminate. Defined.

(** X14: in binary64, for every input with a candidate city and whatever
    [math.Pow], [math.Ceil] and [math.Abs] compute, the table [main]
    merges is built without a panic: every weight vector of the tree
    passes the exact test of [Merge].  The table is well-formed, over the
    cities in input order, with nineteen axes in the order education,
    family, financial, livability, under the row weights below; these sum
    to 1.0000000000000002, not to 1.0. *)
Theorem mainMerged_binary64 (Pow : float -> float -> float)
        (Ceil Abs : float -> float) (input : Input float) :
  CandidateCities input <> [] ->
  exists s,
    mainMerged Pow Ceil Abs input = Ok s /\
    wf s /\
    columnNames s = map (@Name float) (CandidateCities input) /\
    rowNames s = mainRows /\
    rowWeights s = [0.16500000000000001; 0.049500000000000002;
                    0.049500000000000002; 0.016500000000000001;
                    0.049500000000000002; 0.11549999999999999;
                    0.066000000000000003; 0.11549999999999999;
                    0.033000000000000002; 0.17000000000000001;
                    0.026916666666666669; 0.026916666666666669;
                    0.026916666666666669; 0.026916666666666669;
                    0.0121125; 0.0121125; 0.0026916666666666664;
                    0.026916666666666669; 0.0085000000000000006]%float /\
    total (rowWeights s) = 1.0000000000000002%float.
Proof.
  intros Hne.
  destruct (mainMerged_known Pow Ceil Abs input literals_ok_binary64 Hne)
    as [s [HS Hk]].
  exists s. split; [exact HS|]. apply known_parts in Hk.
  destruct Hk as [Hwf [Hc [Hr Hw]]]. repeat (split; [assumption|]).
  rewrite Hw. split; vm_compute; reflexivity.
Qed.

Lemma mainMerged_binary64_witness :
  exists s,
    mainMerged (fun x _ => x) (fun x => x) PrimFloat.abs input64 = Ok s /\
    wf s /\
    columnNames s = map (@Name float) (CandidateCities input64) /\
    rowNames s = mainRows /\
    rowWeights s = [0.16500000000000001; 0.049500000000000002;
                    0.049500000000000002; 0.016500000000000001;
                    0.049500000000000002; 0.11549999999999999;
                    0.066000000000000003; 0.11549999999999999;
                    0.033000000000000002; 0.17000000000000001;
                    0.026916666666666669; 0.026916666666666669;
                    0.026916666666666669; 0.026916666666666669;
                    0.0121125; 0.0121125; 0.0026916666666666664;
                    0.026916666666666669; 0.0085000000000000006]%float /\
    total (rowWeights s) = 1.0000000000000002%float.
Proof.
  apply (mainMerged_binary64 (fun x _ => x) (fun x => x) PrimFloat.abs input64).
  discriminate.
Defined.

(** X15: in binary64, for every input with a candidate city and
    whatever the CDF and the math functions compute, [main] builds its
    table and prints it without a panic; the report has the nineteen
    axes as its header and as the labels of its blocks, in order, and its
    final ranking lists the candidate cities, each as often as the input
    names it. *)
Theorem mainReport_binary64 (CDF : float -> float)
        (Pow : float -> float -> float) (Ceil Abs : float -> float)
        (input : Input float) :
  CandidateCities input <> [] ->
  exists rep,
    mainReport Pow Ceil Abs CDF input = Ok rep /\
    header rep = mainRows /\
    map (@axis_name float) (axes rep) = mainRows /\
    Permutation (map (@Name float) (CandidateCities input))
                (map (@scored_Name float) (final rep)).
Proof.
  intros Hne.
  destruct (mainMerged_known Pow Ceil Abs input literals_ok_binary64 Hne)
    as [s [HS Hk]].
  apply known_parts in Hk. destruct Hk as [Hwf [Hc [Hr Hw]]].
  eexists. split.
  - unfold mainReport. rewrite HS, bind_Ok. apply (Print_report CDF s Hwf).
  - cbn [header axes final]. split; [assumption|].
    split; [now rewrite axisReports_names|].
    rewrite <- Hc. rewrite <- (scoredColumns_names CDF s) at 1.
    apply Permutation_map, Slice_perm.
Qed.

Lemma mainReport_binary64_witness :
  exists rep,
    mainReport (fun x _ => x) (fun x => x) PrimFloat.abs ramp64 input64 = Ok rep /\
    header rep = mainRows /\
    map (@axis_name float) (axes rep) = mainRows /\
    Permutation (map (@Name float) (CandidateCities input64))
                (map (@scored_Name float) (final rep)).
Proof.
  apply (mainReport_binary64 ramp64 (fun x _ => x) (fun x => x) PrimFloat.abs
                             input64).
  discriminate.
Defined.

(** X16: in exact arithmetic, for every input with a candidate city, the
    table [main] merges has the nineteen axes under the row weights
    below: 33, 33, 17 and 17 hundredths divided down the tree; they sum
    to 1. *)
Theorem mainMerged_exact (Pow : R -> R -> R) (Ceil Abs : R -> R)
        (input : Input R) :
  CandidateCities input <> [] ->
  exists s,
    mainMerged Pow Ceil Abs input = Ok s /\
    rowNames s = mainRows /\
    rowWeights s = [33 / 200; 99 / 2000; 99 / 2000; 33 / 2000; 99 / 2000;
                    231 / 2000; 33 / 500; 231 / 2000; 33 / 1000;
                    17 / 100;
                    323 / 12000; 323 / 12000; 323 / 12000; 323 / 12000;
                    969 / 80000; 969 / 80000; 323 / 120000; 323 / 12000;
                    17 / 2000]%R /\
    total (rowWeights s) = 1%R.
Proof.
  intros Hne.
  destruct (mainMerged_known Pow Ceil Abs input literals_ok_exact Hne)
    as [s [HS Hk]].
  exists s. split; [exact HS|]. apply known_parts in Hk.
  destruct Hk as [Hwf [Hc [Hr Hw]]]. split; [assumption|].
  assert (Hws : @mainWeights R Exact =
                [33 / 200; 99 / 2000; 99 / 2000; 33 / 2000; 99 / 2000;
                 231 / 2000; 33 / 500; 231 / 2000; 33 / 1000;
                 17 / 100;
                 323 / 12000; 323 / 12000; 323 / 12000; 323 / 12000;
                 969 / 80000; 969 / 80000; 323 / 120000; 323 / 12000;
                 17 / 2000]%R).
  { unfold mainWeights, educationWeights, familyWeights, livabilityWeights,
      climateWeights, times, over, one. simpl. rewrite ?dec_exact.
    exact_ops. simpl. repeat (f_equal; try lra). }
  rewrite Hw, Hws. split; [reflexivity|].
  rewrite total_Rsum. simpl. lra.
Qed.

Lemma mainMerged_exact_witness :
  exists s,
    mainMerged Rpower (fun x => x) Rabs inputR = Ok s /\
    rowNames s = mainRows /\
    rowWeights s = [33 / 200; 99 / 2000; 99 / 2000; 33 / 2000; 99 / 2000;
                    231 / 2000; 33 / 500; 231 / 2000; 33 / 1000;
                    17 / 100;
                    323 / 12000; 323 / 12000; 323 / 12000; 323 / 12000;
                    969 / 80000; 969 / 80000; 323 / 120000; 323 / 12000;
                    17 / 2000]%R /\
    total (rowWeights s) = 1%R.
Proof. apply (mainMerged_exact Rpower (fun x => x) Rabs inputR). discriminate. Defined.

(** * The financial axis *)

Section Financial.
Local Open Scope R_scope.
Variable Pow : R -> R -> R.
Variables Ceil Abs : R -> R.

(** The monthly payment is proportional to the principal. *)
Lemma mortgage_linear (P : R) :
  mortgage Pow Ceil P = P * mortgage Pow Ceil 1.
Proof. unfold mortgage. exact_ops. unfold Rdiv. ring. Qed.

(** Another home equity moves every city's annual cost by the same
    amount. *)
Lemma annualCost_equity (input : Input R) (equity : R) (city : City R) :
  annualCost Pow Ceil (withHomeEquity input equity) city =
  1 * annualCost Pow Ceil input city
  + 12 * ((HomeEquity input - equity) * mortgage Pow Ceil 1).
Proof.
  unfold annualCost. cbn [withHomeEquity HomeEquity AnnualIncome AnnualExpenses].
  rewrite (mortgage_linear (_ - equity)%f64), (mortgage_linear (_ - HomeEquity input)%f64).
  exact_ops. change (IZR 12) with 12. ring.
Qed.
End Financial.

(** X17: in exact arithmetic, when two candidate cities differ in
    annual cost, the home equity of the input has no effect: the loan is
    the market value minus the equity and the payment is proportional to
    the loan, so another equity moves every city's cost by the same
    amount, which the normalisation removes.  [ScoreFinancial] returns
    the same table, and so does the whole of [main], whatever [math.Pow],
    [math.Ceil], [math.Abs] and the CDF compute. *)
Theorem HomeEquity_has_no_effect (Pow : R -> R -> R) (Ceil Abs CDF : R -> R)
        (input : Input R) (equity : R) :
  (exists c1 c2, In c1 (CandidateCities input) /\ In c2 (CandidateCities input) /\
                 annualCost Pow Ceil input c1 <> annualCost Pow Ceil input c2) ->
  ScoreFinancial Pow Ceil (withHomeEquity input equity)
  = ScoreFinancial Pow Ceil input /\
  mainReport Pow Ceil Abs CDF (withHomeEquity input equity)
  = mainReport Pow Ceil Abs CDF input.
Proof.
  intros [c1 [c2 [H1 [H2 Hne]]]].
  assert (Hc : CandidateCities input <> [])
    by (destruct (CandidateCities input); [destruct H1 | discriminate]).
  assert (HF : ScoreFinancial Pow Ceil (withHomeEquity input equity)
               = ScoreFinancial Pow Ceil input).
  { unfold ScoreFinancial. cbn [withHomeEquity CandidateCities].
    rewrite !NewScoreSet_leaf by assumption. unfold leaf. f_equal.
    f_equal.
    rewrite (map_ext _ _ (annualCost_equity Pow Ceil input equity)).
    rewrite <- (map_map (annualCost Pow Ceil input)
                        (fun t => (1 * t + 12 * ((HomeEquity input - equity)
                                                 * mortgage Pow Ceil 1))%R)).
    rewrite (zrow_affine SMALLER 1 _ (map (annualCost Pow Ceil input)
                                          (CandidateCities input))
                         (annualCost Pow Ceil input c1)
                         (annualCost Pow Ceil input c2));
      [ destruct (Rlt_dec 0 1); [reflexivity | lra]
      | now apply in_map | now apply in_map | assumption | lra ]. }
  split; [exact HF|].
  unfold mainReport, mainMerged. rewrite HF. reflexivity.
Qed.

Lemma HomeEquity_has_no_effect_witness :
  ScoreFinancial Rpower (fun x => x) (withHomeEquity taxedR 0%R)
  = ScoreFinancial Rpower (fun x => x) taxedR /\
  mainReport Rpower (fun x => x) Rabs (fun x => x) (withHomeEquity taxedR 0%R)
  = mainReport Rpower (fun x => x) Rabs (fun x => x) taxedR.
Proof.
  apply (HomeEquity_has_no_effect Rpower (fun x => x) Rabs (fun x => x)
                                  taxedR 0%R).
  exists (taxedCity "A" 0%R), (taxedCity "B" (5 / 100)%R).
  split; [simpl; auto|]. split; [simpl; auto|].
  unfold annualCost. cbn -[mortgage Rpower]. exact_ops.
  cbn -[mortgage Rpower IZR]. lra.
Defined.
